(** * MagicCube: the interactive cube controller of [cube_convnet_solver.py]

    A shallow embedding of the controller class [InteractiveCube] and of the
    module-level helpers [generate_game], [cube2np] and the move vocabulary,
    together with the properties the specification states about them.

    Conventions.
    - Python floats are read as exact rationals ([Q]): [turns * 1. / steps]
      is the quotient [turns / steps].
    - A Python method that mutates its object is a state transformer that
      may raise: it returns the outcome together with the state reached at
      that point, so that what an exception leaves behind is visible.
    - The [Cube] class, the [pycuber] library, the trained model and the
      random generator are not part of the file.  [Cube] is modelled from
      the specification (module [Cube] below); pycuber and the model are
      an interface ([External]) whose operations the controller only
      calls; the draws of the random generator are an argument of
      [_shuffle_cube]. *)

From Stdlib Require Import ZArith QArith Qabs Qround List String Ascii Bool Lia Lqa.
Import ListNotations.

Open Scope nat_scope.

(** ** Exceptions and the state-and-exception monad *)

Inductive Error : Type :=
| InvalidFace      (* the cube model rejects a face identifier *)
| OutOfRange       (* the cube model rejects a layer index *)
| IndexError       (* Python: sequence index out of range *)
| ValueError       (* Python: value not found / not accepted *)
| AttributeError.  (* Python: attribute missing or None *)

Inductive outcome (A : Type) : Type :=
| Ok (a : A)
| Raise (e : Error).

Arguments Ok {A} a.
Arguments Raise {A} e.

(** A computation over a mutable object of type [S]. *)
Definition M (S A : Type) : Type := S -> outcome A * S.

Definition ret {S A : Type} (a : A) : M S A := fun s => (Ok a, s).

Definition raise {S A : Type} (e : Error) : M S A := fun s => (Raise e, s).

Definition bind {S A B : Type} (m : M S A) (k : A -> M S B) : M S B :=
  fun s => match m s with
           | (Ok a, s') => k a s'
           | (Raise e, s') => (Raise e, s')
           end.

Definition get {S : Type} : M S S := fun s => (Ok s, s).

Declare Scope py_scope.
Delimit Scope py_scope with py.

Notation "x <- m ;; k" := (bind m (fun x => k))
  (at level 61, m at next level, right associativity) : py_scope.
Notation "m ;; k" := (bind m (fun _ => k))
  (at level 61, right associativity) : py_scope.

Open Scope py_scope.

(** [for x in xs: body x] *)
Fixpoint for_each {S X : Type} (xs : list X) (body : X -> M S unit) : M S unit :=
  match xs with
  | [] => ret tt
  | x :: xs' => body x ;; for_each xs' body
  end.

(** [for i in range(n): body] where the body ignores [i] *)
Fixpoint repeat_n {S : Type} (n : nat) (body : M S unit) : M S unit :=
  match n with
  | O => ret tt
  | S n' => body ;; repeat_n n' body
  end.

(** ** Integer vectors: sticker centroids on the doubled grid *)

Definition vec : Type := (Z * Z * Z)%type.

Definition dot (u v : vec) : Z :=
  let '(a, b, c) := u in let '(x, y, z) := v in (a * x + b * y + c * z)%Z.

Definition cross (u v : vec) : vec :=
  let '(a, b, c) := u in let '(x, y, z) := v in
  (b * z - c * y, c * x - a * z, a * y - b * x)%Z.

Definition scale (k : Z) (v : vec) : vec :=
  let '(x, y, z) := v in (k * x, k * y, k * z)%Z.

Definition vadd (u v : vec) : vec :=
  let '(a, b, c) := u in let '(x, y, z) := v in (a + x, b + y, c + z)%Z.

(** Rotation of [p] by a quarter turn about the unit axis [v]. *)
Definition quarter (v p : vec) : vec := vadd (scale (dot v p) v) (cross v p).

(** ** The cube model *)

Module Cube.

(** Modelled from the spec: the class [Cube] ([N], [_move_list],
    [rotate_face]) is imported by the controller and is not in the source
    file.  Section 3 of the specification gives its data: a size [N], a
    collection of stickers that carry a colour index and move between
    positions, and a history of applied moves.  A sticker is its centroid
    on the doubled grid and its colour index. *)
Record Sticker : Type := { pos : vec; color : nat }.

(** Modelled from the spec: a move record of the history (section 3), a
    (face, signed turn count, layer index) triple.  The controller passes
    fractions of a turn, so the count is a rational. *)
Definition Move : Type := (string * Q * Z)%type.

(** Modelled from the spec: the state of a [Cube].  [_stickers] is the
    discrete arrangement of section 3 and [_move_list] the history.
    [_angle f layer] is the angle, in quarter turns, through which the
    layer has been turned in all: the turns arrive in fractions, and a
    layer's stickers step to their next position each time its angle
    passes a whole quarter turn. *)
Record t : Type := {
  N : nat;
  _stickers : list Sticker;
  _angle : string -> Z -> Q;
  _move_list : list Move
}.

(** Modelled from the spec: the six faces (glossary) and their outward
    axes; the face identifiers are the letters of the notation. *)
Definition facesdict : list (string * vec) :=
  [ ("F", (0, 0, 1)); ("B", (0, 0, -1));
    ("R", (1, 0, 0)); ("L", (-1, 0, 0));
    ("U", (0, 1, 0)); ("D", (0, -1, 0)) ]%string%Z.

(** Modelled from the spec: [facesdict[k]], the lookup of a face
    identifier; [None] is the invalid face of section 4.1. *)
Fixpoint lookup {V : Type} (k : string) (d : list (string * V)) : option V :=
  match d with
  | [] => None
  | (k', v) :: d' => if String.eqb k k' then Some v else lookup k d'
  end.

(** Modelled from the spec: the centre coordinates of the [N] cubies along
    one axis, -(N-1), -(N-3), .., N-1. *)
Definition grid (n : nat) : list Z :=
  map (fun k => (2 * Z.of_nat k - (Z.of_nat n - 1))%Z) (seq 0 n).

(** Modelled from the spec: the [N] x [N] sticker centroids of the face
    with outward axis [v], at distance [N] from the centre. *)
Definition face_positions (n : nat) (v : vec) : list vec :=
  let '(x, y, z) := v in
  let m := Z.of_nat n in
  flat_map (fun a => map (fun b =>
    if (x =? 0)%Z then
      if (y =? 0)%Z then (a, b, m * z)%Z else (a, m * y, b)%Z
    else (m * x, a, b)%Z) (grid n)) (grid n).

(** Modelled from the spec: the stickers of the solved state, every face
    in one colour (glossary, "canonical/solved state"). *)
Fixpoint solved_stickers (n : nat) (i : nat) (fs : list (string * vec)) : list Sticker :=
  match fs with
  | [] => []
  | (_, v) :: fs' =>
      map (fun p => {| pos := p; color := i |}) (face_positions n v)
      ++ solved_stickers n (S i) fs'
  end.

(** Modelled from the spec: [Cube(N)], the solved cube of size [N]: every
    face shows one colour, nothing has been turned, the history is empty. *)
Definition init (n : nat) : t :=
  {| N := n;
     _stickers := solved_stickers n 0 facesdict;
     _angle := fun _ _ => 0%Q;
     _move_list := [] |}.

(** Modelled from the spec: membership of a sticker in layer [layer] of
    the face with axis [v]; layer 0 is the outer slice (section 3). *)
Definition in_layer (n : nat) (v : vec) (layer : Z) (p : vec) : bool :=
  let m := Z.of_nat n in
  ((m - 2 - 2 * layer <=? dot v p) && (dot v p <=? m - 2 * layer))%Z.

(** Modelled from the spec: [w] quarter turns of one sticker position
    about [v]; four quarter turns are a full turn. *)
Definition turn_pos (v : vec) (w : Z) (p : vec) : vec :=
  Nat.iter (Z.to_nat (w mod 4)) (quarter v) p.

(** Modelled from the spec: [w] quarter turns of a layer; the stickers of
    the layer move and keep their colour (section 4.1). *)
Definition turn_layer (n : nat) (v : vec) (layer w : Z) (ss : list Sticker)
  : list Sticker :=
  map (fun s => if in_layer n v layer (pos s)
                then {| pos := turn_pos v w (pos s); color := color s |}
                else s) ss.

(** Modelled from the spec: the angle table with the entry of one layer
    replaced. *)
Definition set_angle (f : string) (layer : Z) (r : Q) (ang : string -> Z -> Q)
  : string -> Z -> Q :=
  fun f' l' => if (String.eqb f' f && (l' =? layer)%Z)%bool then r else ang f' l'.

(** Modelled from the spec: the cube after a turn of [n] quarter turns of
    layer [layer] about the axis [v] of face [f] (section 4.1): the
    stickers of the layer step by the number of whole quarter turns that
    the layer's angle passes, and the move is appended to the history
    unless it is a 0-turn request. *)
Definition turned (f : string) (v : vec) (n : Q) (layer : Z) (c : t) : t :=
  let r := _angle c f layer in
  let r' := Qred (r + n) in
  {| N := N c;
     _stickers := turn_layer (N c) v layer (Qfloor r' - Qfloor r)%Z (_stickers c);
     _angle := set_angle f layer r' (_angle c);
     _move_list :=
       if Qeq_bool n 0 then _move_list c else _move_list c ++ [(f, n, layer)] |}.

(** Modelled from the spec: [Cube.rotate_face(f, n, layer)], the spec's
    [apply_move], which the source calls and does not define.  An unknown
    face is rejected with [InvalidFace], a layer outside [0, N) with
    [OutOfRange] (section 4.1, failure modes); otherwise the layer is
    turned by [n] quarter turns and the move recorded. *)
Definition rotate_face (f : string) (n : Q) (layer : Z) : M t unit :=
  fun c =>
    match lookup f facesdict with
    | None => (Raise InvalidFace, c)
    | Some v =>
        if ((layer <? 0) || (Z.of_nat (N c) <=? layer))%Z%bool
        then (Raise OutOfRange, c)
        else (Ok tt, turned f v n layer c)
    end.

End Cube.

(** ** Module-level constants and helpers of the source file *)

Definition possible_moves : list string :=
  [ "R"; "R'"; "R2"; "U"; "U'"; "U2"; "F"; "F'"; "F2";
    "D"; "D'"; "D2"; "B"; "B'"; "B2"; "L"; "L'"; "L2" ]%string.

Definition faces : list string := [ "L"; "U"; "R"; "D"; "F"; "B" ]%string.

Definition colors : list string :=
  [ "[r]"; "[y]"; "[o]"; "[w]"; "[g]"; "[b]" ]%string.

Definition max_moves : nat := 6.

(** [random.randint(lo, hi)]: some integer of [lo .. hi], both ends
    included.  [raw] is the generator's draw; every value of the range is
    the image of some draw. *)
Definition randint (lo hi : nat) (raw : nat) : nat := lo + raw mod (hi - lo + 1).

(** [generate_game(max_moves)], the component the controller uses: the list
    [formula].  ([cube_scrambled] and [solution] are pycuber objects that
    [_shuffle_cube] receives and never reads.)  [draws j] is the generator's
    draw at iteration [j]. *)
Definition generate_game (max_moves : nat) (draws : nat -> nat) : list string :=
  let number_moves := max_moves in
  map (fun j => nth (randint 0 (List.length possible_moves - 1) (draws j))
                    possible_moves ""%string)
      (seq 0 number_moves).

(** [l.index(x)] *)
Fixpoint list_index (x : string) (l : list string) : option nat :=
  match l with
  | [] => None
  | y :: l' => if String.eqb x y then Some 0
               else option_map S (list_index x l')
  end.

(** [a[k] = c] on a list used as a fixed-size array *)
Fixpoint set_nth {A : Type} (k : nat) (c : A) (a : list A) : list A :=
  match a, k with
  | [], _ => []
  | _ :: a', O => c :: a'
  | x :: a', S k' => x :: set_nth k' c a'
  end.

(** One row of [cube2np]: [for k in range(len(face_tmp[j]))], writing the
    palette index of each square into a row that starts as zeros. *)
Fixpoint fill_row (k : nat) (row : list string) (cells : list nat)
  : outcome (list nat) :=
  match row with
  | [] => Ok cells
  | caca :: row' =>
      match list_index caca colors with
      | None => Raise ValueError
      | Some c =>
          if k <? List.length cells then fill_row (S k) row' (set_nth k c cells)
          else Raise IndexError
      end
  end.

(** [for j in range(3)] over the rows of one face *)
Fixpoint fill_face (js : list nat) (face_tmp : list (list string))
  : outcome (list (list nat)) :=
  match js with
  | [] => Ok []
  | j :: js' =>
      match nth_error face_tmp j with
      | None => Raise IndexError
      | Some row =>
          match fill_row 0 row [0; 0; 0] with
          | Raise e => Raise e
          | Ok cells =>
              match fill_face js' face_tmp with
              | Raise e => Raise e
              | Ok rest => Ok (cells :: rest)
              end
          end
      end
  end.

(** [np.argmax]: the first index of the largest entry. *)
Fixpoint argmax_from (best_i : nat) (best : Q) (i : nat) (xs : list Q) : nat :=
  match xs with
  | [] => best_i
  | x :: xs' =>
      if Qle_bool x best then argmax_from best_i best (S i) xs'
      else argmax_from i x (S i) xs'
  end.

Definition argmax (xs : list Q) : outcome nat :=
  match xs with
  | [] => Raise ValueError
  | x :: xs' => Ok (argmax_from 0 x 1 xs')
  end.

(** [np.allclose(x, 0)] with the default tolerances: [|x| <= 1e-8]. *)
Definition allclose0 (x : Q) : bool := Qle_bool (Qabs x) (1 # 100000000).

(** [s[i]] on a string, as a one-character string *)
Definition char_at (s : string) (i : nat) : outcome string :=
  match String.get i s with
  | Some c => Ok (String c EmptyString)
  | None => Raise IndexError
  end.

(** [x in s] on strings: [x] occurs in [s] as a substring. *)
Definition str_in (x s : string) : bool :=
  match String.index 0 x s with Some _ => true | None => false end.

Definition upper_ascii (c : ascii) : ascii :=
  let n := nat_of_ascii c in
  if (97 <=? n) && (n <=? 122) then ascii_of_nat (n - 32) else c.

(** [s.upper()] *)
Fixpoint upper (s : string) : string :=
  match s with
  | EmptyString => EmptyString
  | String c s' => String (upper_ascii c) (upper s')
  end.

Definition is_digit_ascii (c : ascii) : bool :=
  let n := nat_of_ascii c in (48 <=? n) && (n <=? 57).

Fixpoint all_digits (s : string) : bool :=
  match s with
  | EmptyString => true
  | String c s' => is_digit_ascii c && all_digits s'
  end.

(** [s.isdigit()] *)
Definition isdigit (s : string) : bool :=
  match s with EmptyString => false | _ => all_digits s end.

Fixpoint int_from (acc : nat) (s : string) : nat :=
  match s with
  | EmptyString => acc
  | String c s' => int_from (10 * acc + (nat_of_ascii c - 48)) s'
  end.

(** [int(s)] on a string of digits *)
Definition int_of (s : string) : nat := int_from 0 s.

(** ** What the controller calls and does not define *)

Class External : Type := {
  PC : Type;                                   (* pycuber cube objects *)
  pc_Cube : PC;                                (* [pc.Cube()], solved *)
  pc_call : string -> M PC unit;               (* [cube(move)], in place *)
  pc_eq : PC -> PC -> bool;                    (* [cube == other] *)
  pc_get_face : PC -> string -> list (list string);
                                               (* [str] of the squares of
                                                  [cube.get_face(face)] *)
  model_predict : list (list nat) -> list Q    (* [model.predict], flattened *)
}.

(** ** The controller *)

Module InteractiveCube.

Section Controller.

Context {E : External}.

(** The fields of [InteractiveCube] that the modelled methods read or
    write.  The view (orientation, limits, polygons) is display state and
    is left out; a label holds the move list it shows, and [None] stands
    for a label that is unset or [None]. *)
Record t : Type := {
  cube : Cube.t;
  _pycuber_rep : PC;
  _moveList : list string;
  _digit_flags : list bool;
  scrambleLabel : option (list string);
  solutionLabel : option (list string)
}.

Definition set_cube (c : Cube.t) (s : t) : t :=
  {| cube := c; _pycuber_rep := _pycuber_rep s; _moveList := _moveList s;
     _digit_flags := _digit_flags s; scrambleLabel := scrambleLabel s;
     solutionLabel := solutionLabel s |}.

Definition set_pycuber_rep (p : PC) (s : t) : t :=
  {| cube := cube s; _pycuber_rep := p; _moveList := _moveList s;
     _digit_flags := _digit_flags s; scrambleLabel := scrambleLabel s;
     solutionLabel := solutionLabel s |}.

Definition set_moveList (l : list string) (s : t) : t :=
  {| cube := cube s; _pycuber_rep := _pycuber_rep s; _moveList := l;
     _digit_flags := _digit_flags s; scrambleLabel := scrambleLabel s;
     solutionLabel := solutionLabel s |}.

Definition set_digit_flags (d : list bool) (s : t) : t :=
  {| cube := cube s; _pycuber_rep := _pycuber_rep s; _moveList := _moveList s;
     _digit_flags := d; scrambleLabel := scrambleLabel s;
     solutionLabel := solutionLabel s |}.

Definition set_scrambleLabel (l : option (list string)) (s : t) : t :=
  {| cube := cube s; _pycuber_rep := _pycuber_rep s; _moveList := _moveList s;
     _digit_flags := _digit_flags s; scrambleLabel := l;
     solutionLabel := solutionLabel s |}.

Definition set_solutionLabel (l : option (list string)) (s : t) : t :=
  {| cube := cube s; _pycuber_rep := _pycuber_rep s; _moveList := _moveList s;
     _digit_flags := _digit_flags s; scrambleLabel := scrambleLabel s;
     solutionLabel := l |}.

Definition modify (f : t -> t) : M t unit := fun s => (Ok tt, f s).

(** A method call on [self.cube] *)
Definition on_cube {A : Type} (m : M Cube.t A) : M t A :=
  fun s => let (r, c) := m (cube s) in (r, set_cube c s).

(** A method call on [self._pycuber_rep] *)
Definition on_pycuber {A : Type} (m : M PC A) : M t A :=
  fun s => let (r, p) := m (_pycuber_rep s) in (r, set_pycuber_rep p s).

Definition lift {A : Type} (o : outcome A) : M t A := fun s => (o, s).

(** [__init__] for a cube of size [n] *)
Definition init (n : nat) : t :=
  {| cube := Cube.init n; _pycuber_rep := pc_Cube; _moveList := [];
     _digit_flags := repeat false 10;
     scrambleLabel := None; solutionLabel := None |}.

(** [rotate_face(face, turns=1, layer=0, steps=5)]: the turn is animated
    as [steps] partial turns of the cube model (each followed by a redraw,
    which changes no modelled field). *)
Definition rotate_face (face : string) (turns : Q) (layer : Z) (steps : nat)
  : M t unit :=
  if negb (allclose0 turns) then
    repeat_n steps
      (on_cube (Cube.rotate_face face (turns * 1 / inject_Z (Z.of_nat steps)) layer))
  else ret tt.

(** [_resetLabels]: the first [.remove()] on a missing label raises
    [AttributeError], which ends the [try] block. *)
Definition _resetLabels : M t unit :=
  fun s =>
    match scrambleLabel s with
    | None => (Ok tt, s)
    | Some _ =>
        let s1 := set_scrambleLabel None s in
        match solutionLabel s1 with
        | None => (Ok tt, s1)
        | Some _ => (Ok tt, set_solutionLabel None s1)
        end
    end.

Definition _printShuffleLabel (moves : list string) : M t unit :=
  modify (set_scrambleLabel (Some moves)).

(** The loop of [_reset_cube] (lines 211-213): a copy of the history is
    walked backwards and each recorded turn is made with the opposite sign,
    in 3 steps. *)
Definition replay_inverse : M t unit :=
  s <- get ;;
  let move_list := Cube._move_list (cube s) in
  for_each (rev move_list)
    (fun m : Cube.Move =>
       let '(face, n, layer) := m in rotate_face face (- n) layer 3).

Definition clear_move_list (c : Cube.t) : Cube.t :=
  {| Cube.N := Cube.N c; Cube._stickers := Cube._stickers c;
     Cube._angle := Cube._angle c; Cube._move_list := [] |}.

(** [_reset_cube]: the spec's [undo_all] *)
Definition _reset_cube : M t unit :=
  replay_inverse ;;
  on_cube (fun c => (Ok tt, clear_move_list c)) ;;
  modify (set_pycuber_rep pc_Cube) ;;
  _resetLabels.

(** The token dispatch that [_shuffle_cube] (lines 256-265) and
    [_solve_cube_NN] (lines 294-302) both spell out: a one-character token
    is a quarter turn, a second character ['] an inverse quarter turn, a
    second character [2] two quarter turns; any other second character
    falls through both tests. *)
Definition turn_token (j : string) : M t unit :=
  if String.length j =? 1 then
    f <- lift (char_at j 0) ;;
    rotate_face f 1 0 5
  else
    c <- lift (char_at j 1) ;;
    if String.eqb c "'" then
      f <- lift (char_at j 0) ;;
      rotate_face f (-1) 0 5
    else if String.eqb c "2" then
      f <- lift (char_at j 0) ;;
      rotate_face f 1 0 5 ;;
      f' <- lift (char_at j 0) ;;
      rotate_face f' 1 0 5
    else ret tt.

(** [_shuffle_cube]; [draws] are the draws of the random generator. *)
Definition _shuffle_cube (draws : nat -> nat) : M t unit :=
  _reset_cube ;;
  let scramble_instructions := generate_game max_moves draws in
  modify (set_moveList scramble_instructions) ;;
  _printShuffleLabel scramble_instructions ;;
  for_each scramble_instructions
    (fun j => on_pycuber (pc_call j) ;; turn_token j).

(** [cube2np]: the 6 x 3 x 3 array of palette indices *)
Fixpoint cube2np_faces (mycube : PC) (fs : list string)
  : outcome (list (list (list nat))) :=
  match fs with
  | [] => Ok []
  | face :: fs' =>
      match fill_face [0; 1; 2] (pc_get_face mycube face) with
      | Raise e => Raise e
      | Ok a =>
          match cube2np_faces mycube fs' with
          | Raise e => Raise e
          | Ok rest => Ok (a :: rest)
          end
      end
  end.

Definition cube2np (mycube : PC) : outcome (list (list (list nat))) :=
  cube2np_faces mycube faces.

(** [_convertPycubeToMove]: [np.reshape(cube_np, (1,18,3,1))] lists the 18
    rows of the 6 faces in order. *)
Definition _convertPycubeToMove (cube : PC) : outcome string :=
  match cube2np cube with
  | Raise e => Raise e
  | Ok cube_np =>
      let cube_np := List.concat cube_np in
      match argmax (model_predict cube_np) with
      | Raise e => Raise e
      | Ok i =>
          match nth_error possible_moves i with
          | Some move => Ok move
          | None => Raise IndexError
          end
      end
  end.

(** The first loop of [_solve_cube_NN]: [for j in range(10)], with
    [cube] an alias of [self._pycuber_rep]. *)
Fixpoint predict_moves (n : nat) (moves : list string) : M t (list string) :=
  match n with
  | O => ret moves
  | S n' =>
      s <- get ;;
      move <- lift (_convertPycubeToMove (_pycuber_rep s)) ;;
      let moves := moves ++ [move] in
      on_pycuber (pc_call move) ;;
      s' <- get ;;
      if pc_eq (_pycuber_rep s') pc_Cube then ret moves
      else predict_moves n' moves
  end.

Definition _solve_cube_NN : M t unit :=
  moves <- predict_moves 10 [] ;;
  modify (set_solutionLabel (Some moves)) ;;
  for_each moves turn_token.

(** The notation that [_key_press] records for a key: Python reads
    [event.key.upper() + "" if direction == 1 else "'"] as
    [(event.key.upper() + "") if direction == 1 else "'"]. *)
Definition sanitizedMove (key_upper : string) (direction : Z) : string :=
  if (direction =? 1)%Z then (key_upper ++ "")%string else "'"%string.

(** [_key_press(event)] with [key = event.key].  The arrow keys turn the
    view, which is not part of the modelled state. *)
Definition _key_press (key : string) : M t unit :=
  if isdigit key then
    s <- get ;;
    if int_of key <? List.length (_digit_flags s)
    then modify (set_digit_flags (set_nth (int_of key) true (_digit_flags s)))
    else raise IndexError
  else if String.eqb key "right" || String.eqb key "shift+right" then ret tt
  else if String.eqb key "shift+left" || String.eqb key "left" then ret tt
  else if String.eqb key "up" then ret tt
  else if String.eqb key "down" then ret tt
  else if str_in (upper key) "LRUDBF" then
    let direction := if str_in key "LRUDBF" then (-1)%Z else 1%Z in
    let sanitizedMove := sanitizedMove (upper key) direction in
    s <- get ;;
    let n := Cube.N (cube s) in
    let flags := firstn n (_digit_flags s) in
    (if existsb (fun b => b) flags then
       if List.length flags <? n then raise IndexError
       else
         for_each (filter (fun d => nth d flags false) (seq 0 n))
           (fun d =>
              rotate_face (upper key) (inject_Z direction) (Z.of_nat d) 5 ;;
              on_pycuber (pc_call sanitizedMove))
     else
       rotate_face (upper key) (inject_Z direction) 0 5 ;;
       on_pycuber (pc_call sanitizedMove)) ;;
    s' <- get ;;
    let l := (_moveList s' ++ [sanitizedMove])%list in
    modify (set_moveList l) ;;
    _printShuffleLabel l
  else ret tt.

End Controller.

End InteractiveCube.

(** * Vocabulary of the properties *)

Definition axis (v : vec) : Prop :=
  exists f, Cube.lookup f Cube.facesdict = Some v.

(** Two cubes show the same geometry: same size, same sticker arrangement,
    every layer turned through the same angle. *)
Definition same_geometry (c c' : Cube.t) : Prop :=
  Cube.N c = Cube.N c' /\
  Cube._stickers c = Cube._stickers c' /\
  forall f l, (Cube._angle c f l == Cube._angle c' f l)%Q.

Module IC := InteractiveCube.

Definition valid_face (f : string) : Prop :=
  exists v, Cube.lookup f Cube.facesdict = Some v.

Definition valid_layer (n : nat) (l : Z) : Prop := (0 <= l < Z.of_nat n)%Z.

(** One recorded move, made again on a cube. *)
Definition apply_entry (c : Cube.t) (m : Cube.Move) : Cube.t :=
  let '(f, a, l) := m in
  match Cube.lookup f Cube.facesdict with
  | Some v => Cube.turned f v a l c
  | None => c
  end.

(** One recorded move, taken back in 3 partial turns. *)
Definition undo_entry (c : Cube.t) (m : Cube.Move) : Cube.t :=
  let '(f, a, l) := m in
  match Cube.lookup f Cube.facesdict with
  | Some v => Nat.iter 3 (Cube.turned f v (- a * 1 / inject_Z (Z.of_nat 3)) l) c
  | None => c
  end.

(** A history entry that [_reset_cube] can take back on a cube of size [n]. *)
Definition entry_ok (n : nat) (m : Cube.Move) : Prop :=
  let '(f, a, l) := m in
  valid_face f /\ valid_layer n l /\ allclose0 (- a) = false.

(** The cube agrees with its history: it shows what the recorded moves
    make of the solved cube, and every recorded move can be taken back. *)
Definition consistent (c : Cube.t) : Prop :=
  Forall (entry_ok (Cube.N c)) (Cube._move_list c) /\
  same_geometry c (fold_left apply_entry (Cube._move_list c) (Cube.init (Cube.N c))).

(** The cube after [rotate_face(face, turns, layer, steps)]. *)
Definition rotated (f : string) (v : vec) (turns : Q) (l : Z) (steps : nat)
           (c : Cube.t) : Cube.t :=
  if allclose0 turns then c
  else Nat.iter steps
         (Cube.turned f v (turns * 1 / inject_Z (Z.of_nat steps)) l) c.



(** The (face, turns) requests that [turn_token] makes for a token, in
    order: the parse of the token. *)
Definition token_turns (j : string) : outcome (list (string * Z)) :=
  if String.length j =? 1 then
    match char_at j 0 with
    | Raise e => Raise e
    | Ok f => Ok [(f, 1%Z)]
    end
  else
    match char_at j 1 with
    | Raise e => Raise e
    | Ok c =>
        if String.eqb c "'" then
          match char_at j 0 with
          | Raise e => Raise e
          | Ok f => Ok [(f, (-1)%Z)]
          end
        else if String.eqb c "2" then
          match char_at j 0 with
          | Raise e => Raise e
          | Ok f => Ok [(f, 1%Z); (f, 1%Z)]
          end
        else Ok []
    end.

(** The notation [_key_press] writes for a request: the rendering. *)
Definition render (r : string * Z) : string :=
  IC.sanitizedMove (fst r) (snd r).

(** The palette index of the [str] of a square (0 for a string that is no
    palette entry; [cube2np] raises on those). *)
Definition palette_index (x : string) : nat :=
  match list_index x colors with Some c => c | None => 0 end.

(** A face as pycuber gives it: 3 rows of 3 squares in palette colours. *)
Definition well_formed_face (rows : list (list string)) : Prop :=
  List.length rows = 3 /\
  Forall (fun row : list string =>
            List.length row = 3 /\ Forall (fun x => In x colors) row) rows.

(** What the controller relies on from its collaborators: pycuber performs
    every token of the vocabulary, the model scores the 18 tokens, and
    every face is a 3 x 3 grid of palette colours. *)
Record externals_ok {E : External} : Prop := {
  pc_call_vocabulary :
    forall (tok : string) (p : PC),
      In tok possible_moves -> exists p', pc_call tok p = (Ok tt, p');
  predict_18 : forall x, List.length (model_predict x) = 18;
  faces_3x3 : forall (p : PC) (f : string),
      In f faces -> well_formed_face (pc_get_face p f)
}.

Arguments externals_ok E : clear implicits.

(** The cube after the requests of a token, of a list of tokens. *)
Definition request_cube (c : Cube.t) (r : string * Z) : Cube.t :=
  let '(f, t) := r in
  match Cube.lookup f Cube.facesdict with
  | Some v => rotated f v (inject_Z t) 0 5 c
  | None => c
  end.

Definition token_cube (c : Cube.t) (tok : string) : Cube.t :=
  match token_turns tok with
  | Ok reqs => fold_left request_cube reqs c
  | Raise _ => c
  end.

Definition tokens_cube (toks : list string) (c : Cube.t) : Cube.t :=
  fold_left token_cube toks c.

(** A change of the cube that keeps its size, depends on the geometry
    only, appends a fixed list of entries to the history, and keeps a cube
    with a layer 0 in agreement with its history. *)
Definition good_step (g : Cube.t -> Cube.t) : Prop :=
  (forall c, Cube.N (g c) = Cube.N c) /\
  (forall c c', same_geometry c c' -> same_geometry (g c) (g c')) /\
  (exists L, forall c, Cube._move_list (g c) = (Cube._move_list c ++ L)%list) /\
  (forall c, 0 < Cube.N c -> consistent c -> consistent (g c)).

(** A computation keeps [P]: whatever its outcome, normal or raised, the
    state it leaves satisfies [P] if the state it started from did. *)
Definition preserves {S A : Type} (P : S -> Prop) (m : M S A) : Prop :=
  forall s r s', m s = (r, s') -> P s -> P s'.

Section VocabularyWithExternals.

Context {E : External}.


Definition make_requests (reqs : list (string * Z)) : M IC.t unit :=
  for_each reqs (fun r : string * Z =>
                   let '(f, t) := r in IC.rotate_face f (inject_Z t) 0 5).

(** The tensor [cube2np] builds from well-formed faces. *)
Definition tensor_of (p : PC) : list (list (list nat)) :=
  map (fun f => map (map palette_index) (pc_get_face p f)) faces.

(** The moves chosen by the first loop of [_solve_cube_NN] with [n]
    iterations left, from pycuber state [p] to [p']: each move is the
    predictor's choice for the state it is applied to, and the loop stops
    at the first state equal to the solved cube or when the count runs out. *)
Inductive predicted : nat -> PC -> list string -> PC -> Prop :=
| predicted_solved (n : nat) (p p' : PC) (move : string) :
    IC._convertPycubeToMove p = Ok move ->
    pc_call move p = (Ok tt, p') ->
    pc_eq p' pc_Cube = true ->
    predicted (S n) p [move] p'
| predicted_exhausted (p p' : PC) (move : string) :
    IC._convertPycubeToMove p = Ok move ->
    pc_call move p = (Ok tt, p') ->
    pc_eq p' pc_Cube = false ->
    predicted 1 p [move] p'
| predicted_step (n : nat) (p p' p'' : PC) (move : string) (moves : list string) :
    IC._convertPycubeToMove p = Ok move ->
    pc_call move p = (Ok tt, p') ->
    pc_eq p' pc_Cube = false ->
    predicted (S n) p' moves p'' ->
    predicted (S (S n)) p (move :: moves) p''.

(** The cube of the controller agrees with its history. *)
Definition cube_consistent (s : IC.t) : Prop := consistent (IC.cube s).

(** The states of the controller: a fresh controller, and what a key
    press, one of the buttons (reset, shuffle, solve) or a whole-turn
    [rotate_face] request makes of a state, whether it returns or raises. *)
Inductive reachable : IC.t -> Prop :=
| reachable_init (n : nat) : reachable (IC.init n)
| reachable_rotate_face (f : string) (t l : Z) (s s' : IC.t) (r : outcome unit) :
    reachable s -> IC.rotate_face f (inject_Z t) l 5 s = (r, s') -> reachable s'
| reachable_key_press (key : string) (s s' : IC.t) (r : outcome unit) :
    reachable s -> IC._key_press key s = (r, s') -> reachable s'
| reachable_reset_cube (s s' : IC.t) (r : outcome unit) :
    reachable s -> IC._reset_cube s = (r, s') -> reachable s'
| reachable_shuffle_cube (draws : nat -> nat) (s s' : IC.t) (r : outcome unit) :
    reachable s -> IC._shuffle_cube draws s = (r, s') -> reachable s'
| reachable_solve_cube_NN (s s' : IC.t) (r : outcome unit) :
    reachable s -> IC._solve_cube_NN s = (r, s') -> reachable s'.

End VocabularyWithExternals.

(** ** A stand-in for the external collaborators

    Used to run the controller on concrete inputs: a move algebra that
    only counts the quarter turns of each face modulo 4, faces that show
    their solved colours, and a predictor that always favours [R]. *)

Module Demo.

Definition PC : Type := list (string * nat).

Definition pc_Cube : PC :=
  [("R", 0); ("U", 0); ("F", 0); ("D", 0); ("B", 0); ("L", 0)]%string.

Definition quarter_turns (tok : string) : nat :=
  match String.get 1 tok with
  | None => 1
  | Some c => if Ascii.eqb c "'" then 3 else 2
  end.

Definition pc_call (tok : string) : M PC unit :=
  fun p =>
    if existsb (String.eqb tok) possible_moves then
      (Ok tt,
       map (fun e : string * nat =>
              let '(g, k) := e in
              if String.eqb (String.substring 0 1 tok) g
              then (g, (k + quarter_turns tok) mod 4) else (g, k)) p)
    else (Raise ValueError, p).

Definition pc_eq (p q : PC) : bool :=
  (List.length p =? List.length q)
  && forallb (fun e : (string * nat) * (string * nat) =>
                let '((g, k), (g', k')) := e in String.eqb g g' && (k =? k'))
             (combine p q).

Definition pc_get_face (p : PC) (face : string) : list (list string) :=
  match list_index face faces with
  | Some i => let c := nth i colors ""%string in
              [[c; c; c]; [c; c; c]; [c; c; c]]
  | None => []
  end.

Definition model_predict (x : list (list nat)) : list Q :=
  (1 :: repeat 0 17)%Q.

Definition external : External :=
  Build_External PC pc_Cube pc_call pc_eq pc_get_face model_predict.

(** The same stand-in with other faces and another predictor. *)
Definition external_with (get_face : PC -> string -> list (list string))
           (predict : list (list nat) -> list Q) : External :=
  Build_External PC pc_Cube pc_call pc_eq get_face predict.

(** A controller for a 3x3x3 cube after the Solve button has been used on
    the fresh controller. *)
Definition after_solve : @InteractiveCube.t external :=
  snd (InteractiveCube._solve_cube_NN (InteractiveCube.init 3)).

(** A controller for a 3x3x3 cube while the digit key [1] is held. *)
Definition holding_1 : @InteractiveCube.t external :=
  snd (InteractiveCube._key_press "1" (InteractiveCube.init 3)).

(** A controller for a 3x3x3 cube after the key [r] has been pressed. *)
Definition after_key_r : @InteractiveCube.t external :=
  snd (InteractiveCube._key_press "r" (InteractiveCube.init 3)).

End Demo.

(** * The view of the controller: orientation, limits and the mouse *)

(** What the view takes from outside: the quaternions of the imported
    module [projection], which the controller builds and multiplies and
    never inspects, with [start_rot] for
    [Quaternion.from_v_theta((1, -1, 0), -np.pi / 6)]; and the limits that
    the axes of the plotting library keep when [set_xlim] or [set_ylim] is
    given a pair. *)
Class Projection : Type := {
  Quaternion : Type;
  from_v_theta : vec -> Q -> Quaternion;
  qmul : Quaternion -> Quaternion -> Quaternion;
  start_rot : Quaternion;
  set_lim : Q * Q -> Q * Q
}.

(** What a handler of the view can raise: the errors of the controller's
    core, and Python's [TypeError]. *)
Inductive ViewError : Type :=
| TypeError
| CoreError (e : Error).

Inductive view_outcome : Type :=
| Done
| Failed (e : ViewError).

Module InteractiveView.

Section View.

Context {E : External} {P : Projection}.

(** The controller with its view: [core] holds the fields modelled in
    [InteractiveCube]; [xlim] and [ylim] are the limits of the axes
    ([get_xlim], [set_xlim]). *)
Record t : Type := {
  core : InteractiveCube.t;
  _current_rot : Quaternion;
  _start_rot : Quaternion;
  xlim : Q * Q;
  ylim : Q * Q;
  _start_xlim : Q * Q;
  _start_ylim : Q * Q;
  _button1 : bool;
  _button2 : bool;
  _event_xy : option (Q * Q);
  _shift : bool
}.

Definition _ax_UD : vec := (1, 0, 0)%Z.
Definition _step_UD : Q := 1 # 100.
Definition _ax_LR : vec := (0, -1, 0)%Z.
Definition _step_LR : Q := 1 # 100.
Definition _ax_LR_alt : vec := (0, 0, 1)%Z.

Definition set_core (c : InteractiveCube.t) (s : t) : t :=
  {| core := c; _current_rot := _current_rot s; _start_rot := _start_rot s;
     xlim := xlim s; ylim := ylim s;
     _start_xlim := _start_xlim s; _start_ylim := _start_ylim s;
     _button1 := _button1 s; _button2 := _button2 s;
     _event_xy := _event_xy s; _shift := _shift s |}.

Definition set_view (rot : Quaternion) (xl yl : Q * Q) (s : t) : t :=
  {| core := core s; _current_rot := rot; _start_rot := _start_rot s;
     xlim := xl; ylim := yl;
     _start_xlim := _start_xlim s; _start_ylim := _start_ylim s;
     _button1 := _button1 s; _button2 := _button2 s;
     _event_xy := _event_xy s; _shift := _shift s |}.

Definition set_mouse (b1 b2 : bool) (xy : option (Q * Q)) (s : t) : t :=
  {| core := core s; _current_rot := _current_rot s;
     _start_rot := _start_rot s; xlim := xlim s; ylim := ylim s;
     _start_xlim := _start_xlim s; _start_ylim := _start_ylim s;
     _button1 := b1; _button2 := b2; _event_xy := xy; _shift := _shift s |}.

Definition set_shift (b : bool) (s : t) : t :=
  {| core := core s; _current_rot := _current_rot s;
     _start_rot := _start_rot s; xlim := xlim s; ylim := ylim s;
     _start_xlim := _start_xlim s; _start_ylim := _start_ylim s;
     _button1 := _button1 s; _button2 := _button2 s;
     _event_xy := _event_xy s; _shift := b |}.

(** [__init__] for a cube of size [n]; [xl] and [yl] are [kwargs['xlim']]
    and [kwargs['ylim']], by default [default_lim]. *)
Definition default_lim : Q * Q := (-2, 2)%Q.

Definition init (n : nat) (xl yl : Q * Q) : t :=
  {| core := InteractiveCube.init n;
     _current_rot := start_rot; _start_rot := start_rot;
     xlim := set_lim xl; ylim := set_lim yl;
     _start_xlim := xl; _start_ylim := yl;
     _button1 := false; _button2 := false;
     _event_xy := None; _shift := false |}.

(** A handler of [InteractiveCube], run on the core. *)
Definition on_core (m : M InteractiveCube.t unit) (s : t) : view_outcome * t :=
  let (r, c) := m (core s) in
  (match r with Ok _ => Done | Raise e => Failed (CoreError e) end,
   set_core c s).

(** [rotate(rot)] *)
Definition rotate (rot : Quaternion) (s : t) : t :=
  set_view (qmul (_current_rot s) rot) (xlim s) (ylim s) s.

(** [_reset_view] *)
Definition _reset_view (s : t) : t :=
  set_view (_start_rot s) (set_lim (_start_xlim s)) (set_lim (_start_ylim s)) s.

(** [_key_press(event)] with the arrow keys; the digit and face keys are
    the branches embedded in [InteractiveCube._key_press]. *)
Definition _key_press (key : string) (s : t) : view_outcome * t :=
  if isdigit key then on_core (InteractiveCube._key_press key) s
  else if String.eqb key "right" || String.eqb key "shift+right" then
    let ax_LR := if String.eqb key "shift+right" then _ax_LR_alt else _ax_LR in
    (Done, rotate (from_v_theta ax_LR (5 * _step_LR)) s)
  else if String.eqb key "shift+left" || String.eqb key "left" then
    let ax_LR := if String.eqb key "shift+left" then _ax_LR_alt else _ax_LR in
    (Done, rotate (from_v_theta ax_LR (-5 * _step_LR)) s)
  else if String.eqb key "up" then
    (Done, rotate (from_v_theta _ax_UD (5 * _step_UD)) s)
  else if String.eqb key "down" then
    (Done, rotate (from_v_theta _ax_UD (-5 * _step_UD)) s)
  else if str_in (upper key) "LRUDBF" then
    on_core (InteractiveCube._key_press key) s
  else (Done, s).

(** [_key_release(event)] *)
Definition _key_release (key : string) (s : t) : view_outcome * t :=
  if String.eqb key "shift" then (Done, set_shift false s)
  else if isdigit key then
    let flags := InteractiveCube._digit_flags (core s) in
    if int_of key <? List.length flags
    then (Done,
          set_core (InteractiveCube.set_digit_flags
                      (set_nth (int_of key) false flags) (core s)) s)
    else (Failed (CoreError IndexError), s)
  else (Done, s).

(** [_mouse_press(event)] *)
Definition _mouse_press (x y : Q) (button : Z) (s : t) : t :=
  let s := set_mouse (_button1 s) (_button2 s) (Some (x, y)) s in
  if (button =? 1)%Z then set_mouse true (_button2 s) (_event_xy s) s
  else if (button =? 3)%Z then set_mouse (_button1 s) true (_event_xy s) s
  else s.

(** [_mouse_release(event)] *)
Definition _mouse_release (button : Z) (s : t) : t :=
  let s := set_mouse (_button1 s) (_button2 s) None s in
  if (button =? 1)%Z then set_mouse false (_button2 s) (_event_xy s) s
  else if (button =? 3)%Z then set_mouse (_button1 s) false (_event_xy s) s
  else s.

(** [_mouse_motion(event)]: [self._event_xy[0]] raises [TypeError] when no
    position is stored. *)
Definition _mouse_motion (x y : Q) (s : t) : view_outcome * t :=
  if _button1 s || _button2 s then
    match _event_xy s with
    | None => (Failed TypeError, s)
    | Some (x0, y0) =>
        let dx := (x - x0)%Q in
        let dy := (y - y0)%Q in
        let s := set_mouse (_button1 s) (_button2 s) (Some (x, y)) s in
        let s :=
          if _button1 s then
            let ax_LR := if _shift s then _ax_LR_alt else _ax_LR in
            let rot1 := from_v_theta _ax_UD (_step_UD * dy) in
            let rot2 := from_v_theta ax_LR (_step_LR * dx) in
            rotate (qmul rot1 rot2) s
          else s in
        let s :=
          if _button2 s then
            let factor := (1 - (3 # 1000) * (dx + dy))%Q in
            let xlim0 := xlim s in
            let ylim0 := ylim s in
            set_view (_current_rot s)
                     (set_lim (factor * fst xlim0, factor * snd xlim0)%Q)
                     (set_lim (factor * fst ylim0, factor * snd ylim0)%Q) s
          else s in
        (Done, s)
    end
  else (Done, s).

(** The events that the constructor connects to handlers (lines 115-124)
    and the clicks on the four buttons (lines 135-150). *)
Inductive event : Type :=
| KeyPress (key : string)
| KeyRelease (key : string)
| MousePress (x y : Q) (button : Z)
| MouseRelease (button : Z)
| MouseMotion (x y : Q)
| ClickResetView
| ClickResetCube
| ClickShuffle (draws : nat -> nat)
| ClickSolve.

Definition handle (ev : event) (s : t) : view_outcome * t :=
  match ev with
  | KeyPress key => _key_press key s
  | KeyRelease key => _key_release key s
  | MousePress x y button => (Done, _mouse_press x y button s)
  | MouseRelease button => (Done, _mouse_release button s)
  | MouseMotion x y => _mouse_motion x y s
  | ClickResetView => (Done, _reset_view s)
  | ClickResetCube => on_core InteractiveCube._reset_cube s
  | ClickShuffle draws => on_core (InteractiveCube._shuffle_cube draws) s
  | ClickSolve => on_core InteractiveCube._solve_cube_NN s
  end.

(** The state after a series of events: an exception ends its handler, and
    the next event finds the state the handler has left. *)
Definition run (evs : list event) (s : t) : t :=
  fold_left (fun s ev => snd (handle ev s)) evs s.

End View.

End InteractiveView.

Module IV := InteractiveView.

Definition arrow_key (key : string) : Prop :=
  In key ["right"; "shift+right"; "left"; "shift+left"; "up"; "down"]%string.


(** An event that is no business of the view: a key other than the arrows,
    the release of a key, and the buttons Reset Cube, Shuffle and Solve. *)
Definition cube_event (ev : IV.event) : Prop :=
  match ev with
  | IV.KeyPress key => ~ arrow_key key
  | IV.KeyRelease _
  | IV.ClickResetCube | IV.ClickShuffle _ | IV.ClickSolve => True
  | IV.MousePress _ _ _ | IV.MouseRelease _ | IV.MouseMotion _ _
  | IV.ClickResetView => False
  end.

(** The orientation, the limits and what is kept of the mouse. *)
Definition view_of {E : External} {P : Projection} (s : IV.t)
  : Quaternion * (Q * Q) * (Q * Q) * bool * bool * option (Q * Q) :=
  (IV._current_rot s, IV.xlim s, IV.ylim s,
   IV._button1 s, IV._button2 s, IV._event_xy s).

(** The fields that no handler assigns after the constructor, at the values
    the constructor gives them; [_shift] is assigned by the release of
    shift alone, and to the same value. *)
Definition start_kept {E : External} {P : Projection}
    (xl yl : Q * Q) (s : IV.t) : Prop :=
  IV._shift s = false /\ IV._start_rot s = start_rot
  /\ IV._start_xlim s = xl /\ IV._start_ylim s = yl.

(** A stand-in for the quaternions: the list of the rotations composed. *)
Definition demo_projection : Projection :=
  {| Quaternion := list (vec * Q);
     from_v_theta := fun v theta => [(v, theta)];
     qmul := fun a b => (a ++ b)%list;
     start_rot := [];
     set_lim := fun l => l |}.

(** Stand-ins that make the predictor boundary fail: faces that show a
    colour outside the palette, a predictor that returns no score, and one
    that returns nineteen scores with the largest last. *)
Definition demo_off_palette : External :=
  Demo.external_with
    (fun _ _ => [["[r]"; "[p]"; "[r]"]; ["[r]"; "[r]"; "[r]"];
                 ["[r]"; "[r]"; "[r]"]]%string)
    Demo.model_predict.

Definition demo_no_score : External :=
  Demo.external_with Demo.pc_get_face (fun _ => []).

Definition demo_nineteen_scores : External :=
  Demo.external_with Demo.pc_get_face (fun _ => (repeat 0 18 ++ [1])%Q).

(** A fresh controller with its view, for a 3x3x3 cube and the default
    limits. *)
Definition demo_view : @IV.t Demo.external demo_projection :=
  IV.init 3 IV.default_lim IV.default_lim.

(** * Vocabulary of the further properties *)

(** Draws of the generator that make [generate_game] return [toks]: at
    iteration [j], the place of the [j]-th token in [possible_moves]. *)
Definition draws_of (toks : list string) (j : nat) : nat :=
  match list_index (nth j toks ""%string) possible_moves with
  | Some i => i
  | None => 0
  end.


(** A row that [cube2np] can encode: at most 3 squares, all of them in
    palette colours. *)
Definition row_encodable (row : list string) : Prop :=
  List.length row <= 3 /\ Forall (fun x => In x colors) row.

(** The row of the array for such a row: the palette indices, and zeros
    in the cells that the loop over the row does not reach. *)
Definition encode_row (row : list string) : list nat :=
  (map palette_index row ++ repeat 0 (3 - List.length row))%list.

(** A face that [cube2np] can encode: rows 0, 1 and 2 exist and can be
    encoded (further rows are not read). *)
Definition face_encodable (rows : list (list string)) : Prop :=
  3 <= List.length rows /\ Forall row_encodable (firstn 3 rows).

Definition encode_face (rows : list (list string)) : list (list nat) :=
  map encode_row (firstn 3 rows).

(** The fields of the controller other than [cube] are those of [s0]. *)
Definition same_but_cube {E : External} (s0 s : IC.t) : Prop :=
  IC.set_cube (IC.cube s) s0 = s.

(** The fields of the controller other than [_pycuber_rep] are those of
    [s0]. *)
Definition same_but_pycuber {E : External} (s0 s : IC.t) : Prop :=
  IC.set_pycuber_rep (IC._pycuber_rep s) s0 = s.

(** A key that [_key_press] takes for a face key. *)
Definition face_key (key : string) : Prop :=
  isdigit key = false /\ str_in (upper key) "LRUDBF" = true.

(** The direction [_key_press] gives a face key, and the notation it
    records for it. *)
Definition key_direction (key : string) : Z :=
  if str_in key "LRUDBF" then (-1)%Z else 1%Z.

Definition key_token (key : string) : string :=
  IC.sanitizedMove (upper key) (key_direction key).

(** The layers a face key turns on a cube of size [n] with the digit flags
    [flags]: the held digits below [n], or layer 0 when none is held. *)
Definition key_layers (n : nat) (flags : list bool) : list nat :=
  if existsb (fun b => b) (firstn n flags)
  then filter (fun d => nth d (firstn n flags) false) (seq 0 n)
  else [0].

(** * Properties *)

Ltac vec_unfold := cbv beta iota delta [dot quarter vadd scale cross].

Ltac cube_proj := cbn [Cube.N Cube._stickers Cube._angle Cube._move_list].

(** ** Quarter turns about a face axis *)

Lemma axis_cases (v : vec) :
  axis v ->
  (v = (0, 0, 1) \/ v = (0, 0, -1) \/ v = (1, 0, 0) \/
   v = (-1, 0, 0) \/ v = (0, 1, 0) \/ v = (0, -1, 0))%Z.
Proof.
  intros [f Hf]. unfold Cube.facesdict in Hf. simpl in Hf.
  repeat match type of Hf with
         | (if ?b then _ else _) = _ => destruct b
         end;
    inversion Hf; subst; tauto.
Qed.

Lemma quarter_dot (v p : vec) : axis v -> dot v (quarter v p) = dot v p.
Proof.
  intros Hv. destruct p as [[x y] z].
  destruct (axis_cases v Hv) as [-> | [-> | [-> | [-> | [-> | ->]]]]];
    vec_unfold; lia.
Qed.

Lemma quarter_four (v p : vec) :
  axis v -> quarter v (quarter v (quarter v (quarter v p))) = p.
Proof.
  intros Hv. destruct p as [[x y] z].
  destruct (axis_cases v Hv) as [-> | [-> | [-> | [-> | [-> | ->]]]]];
    (vec_unfold; f_equal; [f_equal |]; lia).
Qed.

Lemma iter_quarter_dot (v p : vec) (k : nat) :
  axis v -> dot v (Nat.iter k (quarter v) p) = dot v p.
Proof.
  intros Hv. induction k as [| k IH]; simpl; [reflexivity |].
  rewrite quarter_dot by assumption. exact IH.
Qed.

Lemma iter_quarter_plus (v p : vec) (j k : nat) :
  Nat.iter (j + k) (quarter v) p = Nat.iter j (quarter v) (Nat.iter k (quarter v) p).
Proof. induction j as [| j IH]; simpl; [reflexivity | now rewrite IH]. Qed.

Lemma turn_pos_add (v p : vec) (a b : Z) :
  axis v -> Cube.turn_pos v (a + b) p = Cube.turn_pos v a (Cube.turn_pos v b p).
Proof.
  intros Hv. unfold Cube.turn_pos.
  rewrite Z.add_mod by lia.
  pose proof (Z.mod_pos_bound a 4 ltac:(lia)) as Ha.
  pose proof (Z.mod_pos_bound b 4 ltac:(lia)) as Hb.
  set (A := (a mod 4)%Z) in *. set (B := (b mod 4)%Z) in *.
  rewrite <- iter_quarter_plus.
  assert (HA : (A = 0 \/ A = 1 \/ A = 2 \/ A = 3)%Z) by lia.
  assert (HB : (B = 0 \/ B = 1 \/ B = 2 \/ B = 3)%Z) by lia.
  destruct HA as [-> | [-> | [-> | ->]]];
    destruct HB as [-> | [-> | [-> | ->]]];
    change (Nat.iter ?n (quarter v) p) with (Nat.iter n (quarter v) p);
    cbv [Z.add Z.modulo Z.div_eucl Z.pos_div_eucl Z.to_nat Pos.to_nat
         Pos.iter_op Nat.add Pos.add Pos.succ Z.leb Z.ltb Z.compare
         Pos.compare Pos.compare_cont Z.sub Z.opp Z.pos_sub Z.succ_double
         Z.pred_double Z.double Pos.pred_double Z.mul Pos.mul fst snd
         Nat.iter nat_rect];
    rewrite ?quarter_four by assumption; reflexivity.
Qed.

Lemma turn_pos_0 (v p : vec) : Cube.turn_pos v 0 p = p.
Proof. reflexivity. Qed.

Lemma in_layer_turn_pos (n : nat) (v p : vec) (l w : Z) :
  axis v -> Cube.in_layer n v l (Cube.turn_pos v w p) = Cube.in_layer n v l p.
Proof.
  intros Hv. unfold Cube.in_layer, Cube.turn_pos.
  now rewrite iter_quarter_dot.
Qed.

Lemma turn_layer_add (n : nat) (v : vec) (l a b : Z) (ss : list Cube.Sticker) :
  axis v ->
  Cube.turn_layer n v l a (Cube.turn_layer n v l b ss)
  = Cube.turn_layer n v l (a + b) ss.
Proof.
  intros Hv. unfold Cube.turn_layer. rewrite map_map.
  apply map_ext. intros [p c]. simpl.
  destruct (Cube.in_layer n v l p) eqn:Hin; simpl.
  - rewrite in_layer_turn_pos, Hin by assumption.
    now rewrite turn_pos_add.
  - now rewrite Hin.
Qed.

Lemma turn_layer_0 (n : nat) (v : vec) (l : Z) (ss : list Cube.Sticker) :
  Cube.turn_layer n v l 0 ss = ss.
Proof.
  unfold Cube.turn_layer. rewrite <- (map_id ss) at 2.
  apply map_ext. intros [p c]. simpl.
  now destruct (Cube.in_layer n v l p).
Qed.


(** ** The geometry of the cube model *)

Lemma same_geometry_refl (c : Cube.t) : same_geometry c c.
Proof. repeat split; intros; reflexivity. Qed.

Lemma same_geometry_sym (c c' : Cube.t) :
  same_geometry c c' -> same_geometry c' c.
Proof.
  intros (HN & HS & HA). repeat split; auto. intros; symmetry; apply HA.
Qed.

Lemma same_geometry_trans (c1 c2 c3 : Cube.t) :
  same_geometry c1 c2 -> same_geometry c2 c3 -> same_geometry c1 c3.
Proof.
  intros (HN & HS & HA) (HN' & HS' & HA'). repeat split; try congruence.
  intros f l. now rewrite HA.
Qed.

Lemma floor_step_eq (r r' a a' : Q) :
  (r == r')%Q -> (a == a')%Q ->
  (Qfloor (Qred (r + a)) - Qfloor r = Qfloor (Qred (r' + a')) - Qfloor r')%Z.
Proof.
  intros Hr Ha.
  rewrite (Qfloor_comp (Qred (r + a)) (Qred (r' + a'))).
  - now rewrite (Qfloor_comp r r').
  - rewrite !Qred_correct. now rewrite Hr, Ha.
Qed.

Lemma turned_congr (f : string) (v : vec) (a a' : Q) (l : Z) (c c' : Cube.t) :
  same_geometry c c' -> (a == a')%Q ->
  same_geometry (Cube.turned f v a l c) (Cube.turned f v a' l c').
Proof.
  intros (HN & HS & HA) Ha. unfold Cube.turned. repeat split; cube_proj.
  - exact HN.
  - rewrite HN, HS. f_equal. apply floor_step_eq; auto.
  - intros f0 l0. unfold Cube.set_angle.
    destruct (String.eqb f0 f && (l0 =? l)%Z).
    + rewrite !Qred_correct. now rewrite (HA f l), Ha.
    + apply HA.
Qed.

Lemma set_angle_same (f : string) (l : Z) (r : Q) (ang : string -> Z -> Q) :
  Cube.set_angle f l r ang f l = r.
Proof.
  unfold Cube.set_angle. now rewrite String.eqb_refl, Z.eqb_refl.
Qed.

Lemma turned_add (f : string) (v : vec) (a b : Q) (l : Z) (c : Cube.t) :
  axis v ->
  same_geometry (Cube.turned f v b l (Cube.turned f v a l c))
                (Cube.turned f v (a + b) l c).
Proof.
  intros Hv. unfold Cube.turned. repeat split; cube_proj.
  - rewrite set_angle_same. rewrite turn_layer_add by assumption.
    f_equal.
    rewrite (Qfloor_comp (Qred (Qred (Cube._angle c f l + a) + b))
                         (Qred (Cube._angle c f l + (a + b)))).
    + lia.
    + rewrite !Qred_correct. ring.
  - intros f0 l0. rewrite set_angle_same. unfold Cube.set_angle.
    destruct (String.eqb f0 f && (l0 =? l)%Z).
    + rewrite !Qred_correct. ring.
    + reflexivity.
Qed.

Lemma turned_zero (f : string) (v : vec) (a : Q) (l : Z) (c : Cube.t) :
  (a == 0)%Q -> same_geometry (Cube.turned f v a l c) c.
Proof.
  intros Ha. unfold Cube.turned. repeat split; cube_proj.
  - rewrite (Qfloor_comp (Qred (Cube._angle c f l + a)) (Cube._angle c f l)).
    + rewrite Z.sub_diag. apply turn_layer_0.
    + rewrite Qred_correct, Ha. ring.
  - intros f0 l0. unfold Cube.set_angle.
    destruct (String.eqb f0 f && (l0 =? l)%Z) eqn:Hk; [| reflexivity].
    apply andb_prop in Hk as [Hf Hl].
    apply String.eqb_eq in Hf. apply Z.eqb_eq in Hl. subst.
    rewrite Qred_correct, Ha. ring.
Qed.

Lemma iter_turned (f : string) (v : vec) (a : Q) (l : Z) (k : nat) (c : Cube.t) :
  axis v ->
  same_geometry (Nat.iter k (Cube.turned f v a l) c)
                (Cube.turned f v (inject_Z (Z.of_nat k) * a) l c).
Proof.
  intros Hv. induction k as [| k IH].
  - simpl. apply same_geometry_sym, turned_zero. ring.
  - simpl Nat.iter.
    eapply same_geometry_trans;
      [apply turned_congr; [exact IH | reflexivity] |].
    eapply same_geometry_trans; [apply turned_add; exact Hv |].
    apply turned_congr; [apply same_geometry_refl |].
    rewrite Nat2Z.inj_succ. unfold Z.succ. rewrite inject_Z_plus.
    change (inject_Z 1) with 1%Q. ring.
Qed.

(** The history a turn leaves. *)
Lemma turned_move_list (f : string) (v : vec) (a : Q) (l : Z) (c : Cube.t) :
  Cube._move_list (Cube.turned f v a l c)
  = (Cube._move_list c ++ (if Qeq_bool a 0 then [] else [(f, a, l)]))%list.
Proof.
  unfold Cube.turned. cube_proj. destruct (Qeq_bool a 0); [| reflexivity].
  now rewrite app_nil_r.
Qed.

Lemma turned_N (f : string) (v : vec) (a : Q) (l : Z) (c : Cube.t) :
  Cube.N (Cube.turned f v a l c) = Cube.N c.
Proof. reflexivity. Qed.

Lemma iter_turned_N (f : string) (v : vec) (a : Q) (l : Z) (k : nat) (c : Cube.t) :
  Cube.N (Nat.iter k (Cube.turned f v a l) c) = Cube.N c.
Proof. induction k; simpl; auto. Qed.

Lemma iter_turned_move_list (f : string) (v : vec) (a : Q) (l : Z) (k : nat)
      (c : Cube.t) :
  Cube._move_list (Nat.iter k (Cube.turned f v a l) c)
  = (Cube._move_list c
     ++ (if Qeq_bool a 0 then [] else repeat (f, a, l) k))%list.
Proof.
  induction k as [| k IH].
  - simpl. destruct (Qeq_bool a 0); now rewrite app_nil_r.
  - simpl Nat.iter. rewrite turned_move_list, IH.
    destruct (Qeq_bool a 0).
    + now rewrite !app_nil_r.
    + rewrite <- app_assoc. f_equal.
      change ((f, a, l) :: repeat (f, a, l) k) with (repeat (f, a, l) (S k)).
      replace (S k) with (k + 1) by lia.
      now rewrite repeat_app.
Qed.

(** ** Runs of the controller as functions of the cube *)

Lemma valid_face_axis (f : string) (v : vec) :
  Cube.lookup f Cube.facesdict = Some v -> axis v.
Proof. intros H. now exists f. Qed.

Lemma cube_rotate_face_ok (f : string) (v : vec) (a : Q) (l : Z) (c : Cube.t) :
  Cube.lookup f Cube.facesdict = Some v -> valid_layer (Cube.N c) l ->
  Cube.rotate_face f a l c = (Ok tt, Cube.turned f v a l c).
Proof.
  intros Hf [Hl0 Hl1]. unfold Cube.rotate_face. rewrite Hf.
  destruct (Z.ltb_spec l 0); [lia |].
  destruct (Z.leb_spec (Z.of_nat (Cube.N c)) l); [lia |]. reflexivity.
Qed.

Lemma iter_shift {A : Type} (g : A -> A) (k : nat) (x : A) :
  Nat.iter k g (g x) = g (Nat.iter k g x).
Proof. induction k as [| k IH]; simpl; [reflexivity | now rewrite IH]. Qed.

Section ControllerFacts.

Context {E : External}.

Lemma set_cube_cube (s : IC.t) : IC.set_cube (IC.cube s) s = s.
Proof. now destruct s. Qed.

Lemma set_cube_set_cube (c c' : Cube.t) (s : IC.t) :
  IC.set_cube c (IC.set_cube c' s) = IC.set_cube c s.
Proof. reflexivity. Qed.

Lemma repeat_cube_rotate_ok (f : string) (v : vec) (a : Q) (l : Z) (k : nat)
      (s : IC.t) :
  Cube.lookup f Cube.facesdict = Some v ->
  valid_layer (Cube.N (IC.cube s)) l ->
  repeat_n k (IC.on_cube (Cube.rotate_face f a l)) s
  = (Ok tt, IC.set_cube (Nat.iter k (Cube.turned f v a l) (IC.cube s)) s).
Proof.
  intros Hf. revert s. induction k as [| k IH]; intros s Hl.
  - simpl. unfold ret. now rewrite set_cube_cube.
  - simpl repeat_n. unfold bind at 1. unfold IC.on_cube at 1.
    rewrite (cube_rotate_face_ok f v a l _ Hf Hl).
    rewrite IH by exact Hl.
    cbn [IC.cube IC.set_cube]. rewrite set_cube_set_cube.
    now rewrite iter_shift.
Qed.

Lemma rotate_face_ok (f : string) (v : vec) (turns : Q) (l : Z) (steps : nat)
      (s : IC.t) :
  Cube.lookup f Cube.facesdict = Some v ->
  valid_layer (Cube.N (IC.cube s)) l ->
  IC.rotate_face f turns l steps s
  = (Ok tt, IC.set_cube (rotated f v turns l steps (IC.cube s)) s).
Proof.
  intros Hf Hl. unfold IC.rotate_face, rotated.
  destruct (allclose0 turns); simpl negb; cbv iota.
  - unfold ret. now rewrite set_cube_cube.
  - now apply repeat_cube_rotate_ok.
Qed.

Lemma rotated_N (f : string) (v : vec) (turns : Q) (l : Z) (steps : nat)
      (c : Cube.t) :
  Cube.N (rotated f v turns l steps c) = Cube.N c.
Proof.
  unfold rotated. destruct (allclose0 turns); [reflexivity |].
  apply iter_turned_N.
Qed.

End ControllerFacts.

(** ** Taking back a history *)

Lemma iter_turned_congr (f : string) (v : vec) (a : Q) (l : Z) (k : nat)
      (c c' : Cube.t) :
  same_geometry c c' ->
  same_geometry (Nat.iter k (Cube.turned f v a l) c)
                (Nat.iter k (Cube.turned f v a l) c').
Proof.
  intros H. induction k as [| k IH]; simpl; [exact H |].
  apply turned_congr; [exact IH | reflexivity].
Qed.

Lemma apply_entry_congr (m : Cube.Move) (c c' : Cube.t) :
  same_geometry c c' -> same_geometry (apply_entry c m) (apply_entry c' m).
Proof.
  intros H. destruct m as [[f a] l]. unfold apply_entry.
  destruct (Cube.lookup f Cube.facesdict); [| exact H].
  apply turned_congr; [exact H | reflexivity].
Qed.

Lemma undo_entry_congr (m : Cube.Move) (c c' : Cube.t) :
  same_geometry c c' -> same_geometry (undo_entry c m) (undo_entry c' m).
Proof.
  intros H. destruct m as [[f a] l]. unfold undo_entry.
  destruct (Cube.lookup f Cube.facesdict); [| exact H].
  now apply iter_turned_congr.
Qed.

Lemma fold_apply_congr (L : list Cube.Move) (c c' : Cube.t) :
  same_geometry c c' ->
  same_geometry (fold_left apply_entry L c) (fold_left apply_entry L c').
Proof.
  revert c c'. induction L as [| m L IH]; intros c c' H; simpl; [exact H |].
  apply IH. now apply apply_entry_congr.
Qed.

Lemma fold_undo_congr (L : list Cube.Move) (c c' : Cube.t) :
  same_geometry c c' ->
  same_geometry (fold_left undo_entry L c) (fold_left undo_entry L c').
Proof.
  revert c c'. induction L as [| m L IH]; intros c c' H; simpl; [exact H |].
  apply IH. now apply undo_entry_congr.
Qed.

Lemma undo_apply_entry (m : Cube.Move) (c : Cube.t) :
  same_geometry (undo_entry (apply_entry c m) m) c.
Proof.
  destruct m as [[f a] l]. unfold undo_entry, apply_entry.
  destruct (Cube.lookup f Cube.facesdict) as [v |] eqn:Hf;
    [| apply same_geometry_refl].
  pose proof (valid_face_axis f v Hf) as Hv.
  eapply same_geometry_trans; [apply iter_turned; exact Hv |].
  eapply same_geometry_trans; [apply turned_add; exact Hv |].
  apply turned_zero. change (inject_Z (Z.of_nat 3)) with 3%Q. field.
Qed.

(** Walking a history backwards with inverted signs undoes it. *)
Lemma undo_replay (H : list Cube.Move) (c : Cube.t) :
  same_geometry (fold_left undo_entry (rev H) (fold_left apply_entry H c)) c.
Proof.
  induction H as [| m H IH] using rev_ind.
  - apply same_geometry_refl.
  - rewrite rev_app_distr, !fold_left_app. simpl.
    eapply same_geometry_trans; [| exact IH].
    apply fold_undo_congr, undo_apply_entry.
Qed.



Lemma fold_undo_N (L : list Cube.Move) (c : Cube.t) :
  Cube.N (fold_left undo_entry L c) = Cube.N c.
Proof.
  revert c. induction L as [| [[f a] l] L IH]; intros c; cbn [fold_left];
    [reflexivity |].
  rewrite IH. unfold undo_entry.
  destruct (Cube.lookup f Cube.facesdict); [apply iter_turned_N | reflexivity].
Qed.


Section ResetFacts.

Context {E : External}.

Lemma replay_loop_ok (L : list Cube.Move) (s : IC.t) :
  Forall (entry_ok (Cube.N (IC.cube s))) L ->
  for_each L
    (fun m : Cube.Move =>
       let '(face, n, layer) := m in IC.rotate_face face (- n) layer 3) s
  = (Ok tt, IC.set_cube (fold_left undo_entry L (IC.cube s)) s).
Proof.
  revert s. induction L as [| [[f a] l] L IH]; intros s HL.
  - simpl. unfold ret. now rewrite set_cube_cube.
  - inversion HL as [| ? ? Hm HL']; subst.
    destruct Hm as ([v Hf] & Hl & Ha).
    cbn [for_each]. unfold bind.
    rewrite (rotate_face_ok f v (- a) l 3 s Hf Hl).
    rewrite IH.
    + cbn [IC.cube IC.set_cube fold_left]. rewrite set_cube_set_cube.
      assert (Hu : undo_entry (IC.cube s) (f, a, l)
                   = rotated f v (- a) l 3 (IC.cube s)).
      { unfold undo_entry, rotated. now rewrite Hf, Ha. }
      now rewrite Hu.
    + cbn [IC.cube IC.set_cube]. now rewrite rotated_N.
Qed.

Lemma replay_inverse_ok (s : IC.t) :
  Forall (entry_ok (Cube.N (IC.cube s))) (Cube._move_list (IC.cube s)) ->
  IC.replay_inverse s
  = (Ok tt,
     IC.set_cube
       (fold_left undo_entry (rev (Cube._move_list (IC.cube s))) (IC.cube s)) s).
Proof.
  intros H. unfold IC.replay_inverse, bind, get.
  apply replay_loop_ok. now apply Forall_rev.
Qed.

Lemma reset_cube_ok (s : IC.t) :
  Forall (entry_ok (Cube.N (IC.cube s))) (Cube._move_list (IC.cube s)) ->
  exists s',
    IC._reset_cube s = (Ok tt, s') /\
    IC.cube s'
    = IC.clear_move_list
        (fold_left undo_entry (rev (Cube._move_list (IC.cube s))) (IC.cube s)) /\
    IC._pycuber_rep s' = pc_Cube /\
    IC._moveList s' = IC._moveList s /\
    IC._digit_flags s' = IC._digit_flags s.
Proof.
  intros H. unfold IC._reset_cube. unfold bind at 1.
  rewrite (replay_inverse_ok s H).
  unfold bind, IC.on_cube, IC.modify, IC._resetLabels.
  cbn [IC.cube IC.set_cube IC.set_pycuber_rep IC.scrambleLabel IC.solutionLabel
       IC.set_scrambleLabel].
  destruct (IC.scrambleLabel s); [destruct (IC.solutionLabel s) |];
    eexists; (split; [reflexivity |]); repeat split.
Qed.

End ResetFacts.

(** ** Whole-number turn counts *)


Lemma allclose0_int (t : Z) : allclose0 (inject_Z t) = (t =? 0)%Z.
Proof.
  unfold allclose0. destruct (Z.eqb_spec t 0) as [-> | Ht].
  - reflexivity.
  - destruct (Qle_bool (Qabs (inject_Z t)) (1 # 100000000)) eqn:Hq;
      [| reflexivity].
    apply Qle_bool_iff in Hq. apply Qabs_Qle_condition in Hq.
    destruct Hq as [H1 H2]. unfold Qle, inject_Z in H1, H2. simpl in H1, H2.
    lia.
Qed.

(** A whole non-zero turn count split into fewer than 1e8 steps gives
    partial turns that [rotate_face] does not take for zero. *)
Lemma allclose0_fraction (t : Z) (k : nat) :
  t <> 0%Z -> 0 < k -> (Z.of_nat k < 100000000)%Z ->
  allclose0 (- (inject_Z t * 1 / inject_Z (Z.of_nat k))) = false.
Proof.
  intros Ht Hk Hk'. unfold allclose0.
  destruct (Qle_bool _ _) eqn:Hq; [| reflexivity].
  apply Qle_bool_iff in Hq. apply Qabs_Qle_condition in Hq.
  destruct Hq as [H1 H2]. exfalso.
  set (q := inject_Z t) in *. set (kq := inject_Z (Z.of_nat k)) in *.
  assert (Hkq : (0 < kq)%Q).
  { unfold kq. rewrite <- (Zlt_Qlt 0). lia. }
  assert (Hkq' : (kq < 100000000)%Q).
  { unfold kq. change 100000000%Q with (inject_Z 100000000).
    rewrite <- Zlt_Qlt. lia. }
  assert (Hq : (1 <= q \/ q <= -1)%Q).
  { unfold q. destruct (Z_lt_ge_dec 0 t).
    - left. change 1%Q with (inject_Z 1). rewrite <- Zle_Qle. lia.
    - right. change (-1)%Q with (inject_Z (-1)). rewrite <- Zle_Qle. lia. }
  set (x := (q * 1 / kq)%Q) in *.
  assert (Hx : (q == x * kq)%Q).
  { unfold x. field. intros Hz. rewrite Hz in Hkq. discriminate. }
  destruct Hq as [Hq | Hq]; rewrite Hx in Hq; nra.
Qed.

Lemma fraction_nonzero (t : Z) (k : nat) :
  t <> 0%Z -> 0 < k ->
  Qeq_bool (inject_Z t * 1 / inject_Z (Z.of_nat k)) 0 = false.
Proof.
  intros Ht Hk.
  destruct (Qeq_bool _ _) eqn:Hq; [| reflexivity].
  apply Qeq_bool_iff in Hq. exfalso.
  assert (Hkq : ~ (inject_Z (Z.of_nat k) == 0)%Q).
  { intros Hz. unfold Qeq, inject_Z in Hz. simpl in Hz. lia. }
  assert (Hx : (inject_Z t
                == inject_Z t * 1 / inject_Z (Z.of_nat k) * inject_Z (Z.of_nat k))%Q)
    by (field; exact Hkq).
  rewrite Hq in Hx. unfold Qeq, inject_Z in Hx. simpl in Hx. lia.
Qed.




Lemma rotated_congr (f : string) (v : vec) (turns : Q) (l : Z) (steps : nat)
      (c c' : Cube.t) :
  same_geometry c c' ->
  same_geometry (rotated f v turns l steps c) (rotated f v turns l steps c').
Proof.
  intros H. unfold rotated. destruct (allclose0 turns); [exact H |].
  now apply iter_turned_congr.
Qed.

(** ** The cube and its history stay in agreement *)

Lemma fold_apply_repeat (f : string) (v : vec) (a : Q) (l : Z) (k : nat)
      (c : Cube.t) :
  Cube.lookup f Cube.facesdict = Some v ->
  fold_left apply_entry (repeat (f, a, l) k) c
  = Nat.iter k (Cube.turned f v a l) c.
Proof.
  intros Hf. revert c. induction k as [| k IH]; intros c; [reflexivity |].
  cbn [repeat fold_left]. rewrite IH. unfold apply_entry. rewrite Hf.
  now rewrite iter_shift.
Qed.

Lemma init_consistent (n : nat) : consistent (Cube.init n).
Proof.
  split; [constructor | apply same_geometry_refl].
Qed.

Lemma rotated_consistent (f : string) (v : vec) (t : Z) (l : Z) (c : Cube.t) :
  Cube.lookup f Cube.facesdict = Some v -> valid_layer (Cube.N c) l ->
  consistent c -> consistent (rotated f v (inject_Z t) l 5 c).
Proof.
  intros Hf Hl [Hok Hgeo]. unfold rotated. rewrite allclose0_int.
  destruct (Z.eqb_spec t 0) as [-> | Ht]; [now split |].
  set (a := (inject_Z t * 1 / inject_Z (Z.of_nat 5))%Q).
  assert (Hml : Cube._move_list (Nat.iter 5 (Cube.turned f v a l) c)
                = (Cube._move_list c ++ repeat (f, a, l) 5)%list).
  { rewrite iter_turned_move_list. unfold a.
    now rewrite fraction_nonzero by (auto; lia). }
  split.
  - rewrite Hml, iter_turned_N. apply Forall_app. split; [exact Hok |].
    apply Forall_forall. intros m Hm. apply repeat_spec in Hm. subst m.
    repeat split; try apply Hl.
    + now exists v.
    + unfold a. apply allclose0_fraction; auto; lia.
  - rewrite Hml, iter_turned_N, fold_left_app.
    rewrite (fold_apply_repeat f v a l 5 _ Hf).
    now apply iter_turned_congr.
Qed.

Section MoveFacts.

Context {E : External}.


Lemma clear_move_list_geometry (c : Cube.t) :
  same_geometry (IC.clear_move_list c) c.
Proof. repeat split; intros; reflexivity. Qed.

(** [_reset_cube] on a cube that agrees with its history. *)
Lemma reset_consistent (s : IC.t) :
  consistent (IC.cube s) ->
  exists s',
    IC._reset_cube s = (Ok tt, s') /\
    same_geometry (IC.cube s') (Cube.init (Cube.N (IC.cube s))) /\
    Cube._move_list (IC.cube s') = [] /\
    IC._pycuber_rep s' = pc_Cube /\
    IC._moveList s' = IC._moveList s /\
    IC._digit_flags s' = IC._digit_flags s.
Proof.
  intros [Hok Hgeo].
  destruct (reset_cube_ok s Hok) as (s' & Hrun & Hcube & Hpc & Hml & Hdf).
  exists s'. split; [exact Hrun |]. split; [| now rewrite Hcube].
  rewrite Hcube.
  eapply same_geometry_trans; [apply clear_move_list_geometry |].
  eapply same_geometry_trans; [apply fold_undo_congr; exact Hgeo |].
  apply undo_replay.
Qed.

End MoveFacts.

(** ** Undo and inverse moves *)

Section UndoProperties.

Context {E : External}.



End UndoProperties.



(** ** Turns that change nothing *)

Section NoOpTurns.

Context {E : External}.


End NoOpTurns.


(** ** Notation tokens *)

Section Tokens.

Context {E : External}.

Lemma bind_ret_tt (m : M IC.t unit) (s : IC.t) :
  (m ;; ret tt) s = m s.
Proof.
  unfold bind, ret. destruct (m s) as [[[] | e] s']; reflexivity.
Qed.

Lemma turn_token_requests (j : string) (s : IC.t) :
  IC.turn_token j s
  = match token_turns j with
    | Raise e => (Raise e, s)
    | Ok reqs => make_requests reqs s
    end.
Proof.
  unfold IC.turn_token, token_turns, make_requests.
  destruct j as [| c0 [| c1 j']].
  - reflexivity.
  - cbn [String.length Nat.eqb char_at String.get for_each].
    rewrite bind_ret_tt. reflexivity.
  - cbn [String.length Nat.eqb char_at String.get].
    unfold bind at 1. unfold IC.lift at 1.
    destruct (String.eqb (String c1 "") "'").
    + cbn [for_each]. rewrite bind_ret_tt. reflexivity.
    + destruct (String.eqb (String c1 "") "2").
      * cbn [for_each]. unfold bind at 1. unfold IC.lift at 1.
        unfold bind at 1. unfold bind at 2.
        change (inject_Z 1) with 1%Q.
        destruct (IC.rotate_face (String c0 "") 1 0 5 s) as [[[] | e] s1];
          [| reflexivity].
        unfold bind at 1. unfold IC.lift at 1.
        now rewrite bind_ret_tt.
      * reflexivity.
Qed.

End Tokens.

Section TokenProperties.

Context {E : External}.




End TokenProperties.

(** C4 (amended).  Each of the six quarter-turn tokens parses to one
    (face, +1) request whose rendering is the token again.  Each inverse
    token parses to one (face, -1) request, and each half-turn token to two
    (face, +1) requests, which are rendered as the bare face letter twice:
    there is no rendering of a half turn. *)
Theorem quarter_turn_tokens_round_trip :
  Forall (fun tok : string =>
            token_turns tok = Ok [(tok, 1%Z)] /\ render (tok, 1%Z) = tok)
         ["R"; "U"; "F"; "D"; "B"; "L"]%string /\
  Forall (fun f : string => token_turns (f ++ "'") = Ok [(f, (-1)%Z)])
         ["R"; "U"; "F"; "D"; "B"; "L"]%string /\
  Forall (fun f : string =>
            token_turns (f ++ "2") = Ok [(f, 1%Z); (f, 1%Z)] /\
            map render [(f, 1%Z); (f, 1%Z)] = [f; f])
         ["R"; "U"; "F"; "D"; "B"; "L"]%string /\
  possible_moves
  = flat_map (fun f : string => [f; (f ++ "'")%string; (f ++ "2")%string])
             ["R"; "U"; "F"; "D"; "B"; "L"]%string.
Proof.
  repeat split; repeat constructor.
Qed.

(** What the rendering of [_key_press] gives for an inverse quarter turn:
    the apostrophe alone, without the face letter. *)
Example sanitizedMove_inverse_drops_face :
  IC.sanitizedMove "R" (-1) = "'"%string.
Proof. reflexivity. Qed.

Lemma half_turn_round_trip_counterexample :
  In "R2"%string possible_moves /\
  exists reqs : list (string * Z),
    token_turns "R2" = Ok reqs /\
    map render reqs = ["R"; "R"]%string /\
    map render reqs <> ["R2"]%string.
Proof.
  split; [simpl; tauto |].
  exists [("R"%string, 1%Z); ("R"%string, 1%Z)].
  split; [reflexivity |]. split; [reflexivity | discriminate].
Qed.





(** ** The predictor boundary *)

Lemma list_index_In (x : string) (l : list string) :
  In x l ->
  exists c, list_index x l = Some c /\ c < List.length l /\ nth c l ""%string = x.
Proof.
  induction l as [| y l IH]; intros Hin; [contradiction |].
  simpl. destruct (String.eqb_spec x y) as [-> | Hne].
  - exists 0. repeat split. simpl. lia.
  - destruct Hin as [-> | Hin]; [congruence |].
    destruct (IH Hin) as (c & Hc & Hlt & Hnth).
    exists (S c). rewrite Hc. repeat split; simpl; auto. lia.
Qed.

Lemma palette_index_spec (x : string) :
  In x colors ->
  list_index x colors = Some (palette_index x) /\
  palette_index x < 6 /\ nth (palette_index x) colors ""%string = x.
Proof.
  intros Hin. destruct (list_index_In x colors Hin) as (c & Hc & Hlt & Hnth).
  unfold palette_index. rewrite Hc. auto.
Qed.

Lemma fill_row_ok (row : list string) :
  List.length row = 3 -> Forall (fun x => In x colors) row ->
  fill_row 0 row [0; 0; 0] = Ok (map palette_index row).
Proof.
  intros Hlen Hall.
  destruct row as [| a [| b [| c [| d row]]]]; try discriminate.
  inversion Hall as [| ? ? Ha Hall1]; subst.
  inversion Hall1 as [| ? ? Hb Hall2]; subst.
  inversion Hall2 as [| ? ? Hc _]; subst.
  apply palette_index_spec in Ha as [Ha _].
  apply palette_index_spec in Hb as [Hb _].
  apply palette_index_spec in Hc as [Hc _].
  cbn [fill_row]. rewrite Ha. cbn [List.length Nat.ltb Nat.leb set_nth fill_row].
  rewrite Hb. cbn [List.length Nat.ltb Nat.leb set_nth fill_row].
  rewrite Hc. reflexivity.
Qed.

Lemma fill_face_ok (rows : list (list string)) :
  well_formed_face rows ->
  fill_face [0; 1; 2] rows = Ok (map (map palette_index) rows).
Proof.
  intros [Hlen Hall].
  destruct rows as [| r0 [| r1 [| r2 [| r3 rows]]]]; try discriminate.
  inversion Hall as [| ? ? [H0 H0'] Hall1]; subst.
  inversion Hall1 as [| ? ? [H1 H1'] Hall2]; subst.
  inversion Hall2 as [| ? ? [H2 H2'] _]; subst.
  cbn [fill_face nth_error].
  rewrite (fill_row_ok r0 H0 H0'), (fill_row_ok r1 H1 H1'),
    (fill_row_ok r2 H2 H2').
  reflexivity.
Qed.

(** [argmax_from] continues a scan: [pre] is what has been read, [bi] the
    first index of its largest entry [b]. *)
Lemma argmax_from_spec (pre xs : list Q) (bi : nat) (b : Q) :
  bi < List.length pre -> nth bi pre 0%Q = b ->
  (forall k, k < List.length pre -> (nth k pre 0 <= b)%Q) ->
  (forall k, k < bi -> (nth k pre 0 < b)%Q) ->
  let r := argmax_from bi b (List.length pre) xs in
  r < List.length (pre ++ xs) /\
  (forall k, k < List.length (pre ++ xs) ->
             (nth k (pre ++ xs) 0 <= nth r (pre ++ xs) 0)%Q) /\
  (forall k, k < r -> (nth k (pre ++ xs) 0 < nth r (pre ++ xs) 0)%Q).
Proof.
  revert pre bi b. induction xs as [| x xs IH]; intros pre bi b Hbi Hb Hmax Hfirst.
  - simpl. rewrite app_nil_r. rewrite Hb. auto.
  - cbn [argmax_from].
    assert (Hlen : List.length (pre ++ [x]) = S (List.length pre))
      by (rewrite length_app; simpl; lia).
    replace (pre ++ x :: xs)%list with ((pre ++ [x]) ++ xs)%list
      by (rewrite <- app_assoc; reflexivity).
    rewrite <- Hlen.
    destruct (Qle_bool x b) eqn:Hx.
    + apply Qle_bool_iff in Hx. apply IH.
      * rewrite Hlen. lia.
      * rewrite app_nth1 by lia. exact Hb.
      * intros k Hk. rewrite Hlen in Hk.
        destruct (Nat.eq_dec k (List.length pre)) as [-> | Hne].
        -- rewrite app_nth2 by lia. rewrite Nat.sub_diag. exact Hx.
        -- rewrite app_nth1 by lia. apply Hmax. lia.
      * intros k Hk. rewrite app_nth1 by lia. now apply Hfirst.
    + assert (Hlt : (b < x)%Q).
      { apply Qnot_le_lt. intros H. apply Qle_bool_iff in H. congruence. }
      apply IH.
      * rewrite Hlen. lia.
      * rewrite app_nth2 by lia. now rewrite Nat.sub_diag.
      * intros k Hk. rewrite Hlen in Hk.
        destruct (Nat.eq_dec k (List.length pre)) as [-> | Hne].
        -- rewrite app_nth2 by lia. rewrite Nat.sub_diag. apply Qle_refl.
        -- rewrite app_nth1 by lia. apply Qle_trans with b; [apply Hmax; lia |].
           now apply Qlt_le_weak.
      * intros k Hk. rewrite app_nth1 by lia.
        apply Qle_lt_trans with b; [apply Hmax; lia | exact Hlt].
Qed.

(** [np.argmax] returns the first index of a largest entry. *)
Lemma argmax_spec (xs : list Q) :
  xs <> [] ->
  exists i,
    argmax xs = Ok i /\ i < List.length xs /\
    (forall k, k < List.length xs -> (nth k xs 0 <= nth i xs 0)%Q) /\
    (forall k, k < i -> (nth k xs 0 < nth i xs 0)%Q).
Proof.
  destruct xs as [| x xs]; [congruence |]. intros _.
  exists (argmax_from 0 x 1 xs). split; [reflexivity |].
  apply (argmax_from_spec [x] xs 0 x).
  - simpl. lia.
  - reflexivity.
  - intros k Hk. simpl in Hk. replace k with 0 by lia. apply Qle_refl.
  - intros k Hk. lia.
Qed.

Section Predictor.

Context {E : External}.

Lemma cube2np_faces_ok (p : PC) (fs : list string) :
  (forall f, In f fs -> well_formed_face (pc_get_face p f)) ->
  IC.cube2np_faces p fs
  = Ok (map (fun f => map (map palette_index) (pc_get_face p f)) fs).
Proof.
  induction fs as [| f fs IH]; intros H; [reflexivity |].
  cbn [IC.cube2np_faces map].
  rewrite (fill_face_ok _ (H f (or_introl eq_refl))).
  rewrite IH by (intros g Hg; apply H; now right).
  reflexivity.
Qed.

Lemma cube2np_ok (p : PC) :
  externals_ok E -> IC.cube2np p = Ok (tensor_of p).
Proof.
  intros HE. apply cube2np_faces_ok. intros f Hf. now apply faces_3x3.
Qed.

Lemma convert_ok (p : PC) :
  externals_ok E ->
  exists i,
    argmax (model_predict (List.concat (tensor_of p))) = Ok i /\
    i < 18 /\
    IC._convertPycubeToMove p = Ok (nth i possible_moves ""%string) /\
    In (nth i possible_moves ""%string) possible_moves.
Proof.
  intros HE.
  set (scores := model_predict (List.concat (tensor_of p))).
  assert (Hlen : List.length scores = 18) by apply (predict_18 HE).
  destruct (argmax_spec scores) as (i & Hi & Hlt & _).
  { intros Hnil. rewrite Hnil in Hlen. discriminate. }
  exists i. rewrite Hlen in Hlt. split; [exact Hi |]. split; [exact Hlt |].
  assert (Hnth : nth_error possible_moves i = Some (nth i possible_moves ""%string)).
  { apply nth_error_nth'. exact Hlt. }
  split.
  - unfold IC._convertPycubeToMove. rewrite (cube2np_ok p HE).
    fold scores. rewrite Hi, Hnth. reflexivity.
  - apply nth_In. exact Hlt.
Qed.

Lemma predicted_length (n : nat) (p p' : PC) (moves : list string) :
  predicted n p moves p' -> 1 <= List.length moves <= n.
Proof. induction 1; simpl in *; lia. Qed.

Lemma predicted_early (n : nat) (p p' : PC) (moves : list string) :
  predicted n p moves p' -> List.length moves < n -> pc_eq p' pc_Cube = true.
Proof.
  induction 1; simpl; intros Hlt; auto; try lia. apply IHpredicted. lia.
Qed.

Lemma predicted_vocabulary (n : nat) (p p' : PC) (moves : list string) :
  externals_ok E -> predicted n p moves p' ->
  Forall (fun m => In m possible_moves) moves.
Proof.
  intros HE.
  assert (Hmv : forall q move, IC._convertPycubeToMove q = Ok move ->
                               In move possible_moves).
  { intros q move Hc.
    destruct (convert_ok q HE) as (i & _ & _ & Hconv & Hin).
    rewrite Hconv in Hc. inversion Hc; subst. exact Hin. }
  induction 1; constructor; eauto.
Qed.

Lemma predict_moves_spec (n : nat) (acc : list string) (s : IC.t) :
  externals_ok E -> 0 < n ->
  exists (moves : list string) (p' : PC),
    IC.predict_moves n acc s = (Ok (acc ++ moves)%list, IC.set_pycuber_rep p' s) /\
    predicted n (IC._pycuber_rep s) moves p'.
Proof.
  intros HE. revert acc s. induction n as [| n IH]; intros acc s Hn; [lia |].
  destruct (convert_ok (IC._pycuber_rep s) HE) as (i & _ & _ & Hconv & Hin).
  set (move := nth i possible_moves ""%string) in *.
  destruct (pc_call_vocabulary HE move (IC._pycuber_rep s) Hin) as [p1 Hcall].
  cbn [IC.predict_moves]. unfold bind at 1. unfold get at 1.
  unfold bind at 1. unfold IC.lift at 1. rewrite Hconv.
  unfold bind at 1. unfold IC.on_pycuber at 1. rewrite Hcall.
  unfold bind at 1. unfold get at 1. cbn [IC._pycuber_rep IC.set_pycuber_rep].
  destruct (pc_eq p1 pc_Cube) eqn:Heq.
  - exists [move], p1. split; [reflexivity |].
    now apply predicted_solved.
  - destruct n as [| n].
    + exists [move], p1. split; [reflexivity |].
      now apply predicted_exhausted.
    + destruct (IH (acc ++ [move])%list (IC.set_pycuber_rep p1 s) ltac:(lia))
        as (moves & p2 & Hrun & Hpred).
      exists (move :: moves), p2. split.
      * rewrite Hrun. rewrite <- app_assoc. reflexivity.
      * cbn [IC._pycuber_rep IC.set_pycuber_rep] in Hpred.
        now apply predicted_step with p1.
Qed.

End Predictor.

Lemma demo_externals_ok : externals_ok Demo.external.
Proof.
  constructor.
  - intros tok p Hin. cbn [pc_call Demo.external]. unfold Demo.pc_call.
    assert (Hex : existsb (String.eqb tok) possible_moves = true).
    { apply existsb_exists. exists tok. split; [exact Hin |].
      apply String.eqb_refl. }
    rewrite Hex. eexists. reflexivity.
  - intros x. reflexivity.
  - intros p f Hin. cbn [pc_get_face Demo.external].
    unfold faces in Hin. simpl in Hin.
    destruct Hin as [<- | [<- | [<- | [<- | [<- | [<- | []]]]]]];
      (split; [reflexivity |]);
      repeat (apply Forall_cons; [split; [reflexivity |] |]);
      try apply Forall_nil;
      repeat (apply Forall_cons; [simpl; tauto |]); apply Forall_nil.
Qed.

Section SolveProperties.

Context {E : External}.

Lemma predicted_head (n : nat) (p p' : PC) (moves : list string) :
  predicted n p moves p' ->
  exists move rest p1,
    moves = move :: rest /\
    IC._convertPycubeToMove p = Ok move /\
    pc_call move p = (Ok tt, p1) /\
    (pc_eq p1 pc_Cube = true -> rest = [] /\ p' = p1).
Proof.
  intros H. inversion H; subst.
  - exists move, [], p'. repeat split; auto.
  - exists move, [], p'. repeat split; auto.
  - exists move, moves0, p'0. repeat split; auto; congruence.
Qed.

Lemma solve_runs (s : IC.t) (moves : list string) (p' : PC) :
  IC.predict_moves 10 [] s = (Ok moves, IC.set_pycuber_rep p' s) ->
  IC._solve_cube_NN s
  = for_each moves IC.turn_token
      (IC.set_solutionLabel (Some moves) (IC.set_pycuber_rep p' s)).
Proof.
  intros H. unfold IC._solve_cube_NN. unfold bind at 1. rewrite H.
  reflexivity.
Qed.

(** C3.  [_solve_cube_NN] takes its moves from the predictor one at a time,
    each chosen for the state the previous moves have produced; it stops at
    the first state equal to the solved cube, and otherwise after 10 moves;
    the moves it then turns on the displayed cube are exactly these, so
    never more than 10. *)
Theorem solve_applies_at_most_ten_moves (s : IC.t) :
  externals_ok E ->
  exists (moves : list string) (p' : PC),
    IC.predict_moves 10 [] s = (Ok moves, IC.set_pycuber_rep p' s) /\
    predicted 10 (IC._pycuber_rep s) moves p' /\
    1 <= List.length moves <= 10 /\
    (List.length moves < 10 -> pc_eq p' pc_Cube = true) /\
    IC._solve_cube_NN s
    = for_each moves IC.turn_token
        (IC.set_solutionLabel (Some moves) (IC.set_pycuber_rep p' s)).
Proof.
  intros HE.
  destruct (predict_moves_spec 10 [] s HE ltac:(lia)) as (moves & p' & Hrun & Hp).
  cbn [app] in Hrun.
  exists moves, p'. split; [exact Hrun |]. split; [exact Hp |].
  split; [exact (predicted_length _ _ _ _ Hp) |].
  split; [exact (predicted_early _ _ _ _ Hp) |].
  now apply solve_runs.
Qed.

(** C9.  On a cube whose pycuber state already equals the solved cube,
    [_solve_cube_NN] still asks the predictor for a move, applies it to the
    pycuber state and turns it on the displayed cube: the comparison with
    the solved cube is only made after a move has been applied, on the
    state the move has produced. *)
Theorem solve_on_solved_cube_still_moves (s : IC.t) :
  externals_ok E -> pc_eq (IC._pycuber_rep s) pc_Cube = true ->
  exists (move : string) (rest : list string) (p1 p' : PC),
    IC._convertPycubeToMove (IC._pycuber_rep s) = Ok move /\
    pc_call move (IC._pycuber_rep s) = (Ok tt, p1) /\
    (pc_eq p1 pc_Cube = true -> rest = [] /\ p' = p1) /\
    IC.predict_moves 10 [] s = (Ok (move :: rest), IC.set_pycuber_rep p' s) /\
    IC._solve_cube_NN s
    = for_each (move :: rest) IC.turn_token
        (IC.set_solutionLabel (Some (move :: rest)) (IC.set_pycuber_rep p' s)).
Proof.
  intros HE _.
  destruct (predict_moves_spec 10 [] s HE ltac:(lia)) as (moves & p' & Hrun & Hp).
  cbn [app] in Hrun.
  destruct (predicted_head _ _ _ _ Hp)
    as (move & rest & p1 & -> & Hc & Hcall & Hstop).
  exists move, rest, p1, p'.
  split; [exact Hc |]. split; [exact Hcall |]. split; [exact Hstop |].
  split; [exact Hrun |].
  now apply solve_runs.
Qed.

(** C6.  The state handed to the predictor is a 6 x 3 x 3 array: the faces
    in the order L, U, R, D, F, B, each cell the index of the square's
    colour in the 6-entry palette.  The move returned is the entry of the
    18-token vocabulary at the first index of the highest score. *)
Theorem predictor_boundary_encoding (p : PC) :
  externals_ok E ->
  faces = ["L"; "U"; "R"; "D"; "F"; "B"]%string /\
  List.length colors = 6 /\
  possible_moves
  = ["R"; "R'"; "R2"; "U"; "U'"; "U2"; "F"; "F'"; "F2";
     "D"; "D'"; "D2"; "B"; "B'"; "B2"; "L"; "L'"; "L2"]%string /\
  IC.cube2np p
  = Ok (map (fun f => map (map palette_index) (pc_get_face p f)) faces) /\
  List.length (tensor_of p) = 6 /\
  Forall (fun face : list (list nat) =>
            List.length face = 3 /\
            Forall (fun row : list nat =>
                      List.length row = 3 /\ Forall (fun c => c < 6) row) face)
         (tensor_of p) /\
  Forall (fun f : string =>
            Forall (fun row : list string =>
                      Forall (fun x : string =>
                                nth (palette_index x) colors ""%string = x) row)
                   (pc_get_face p f))
         faces /\
  exists i : nat,
    argmax (model_predict (List.concat (tensor_of p))) = Ok i /\
    i < 18 /\
    (forall k, k < 18 ->
       (nth k (model_predict (List.concat (tensor_of p))) 0
        <= nth i (model_predict (List.concat (tensor_of p))) 0)%Q) /\
    IC._convertPycubeToMove p = Ok (nth i possible_moves ""%string).
Proof.
  intros HE.
  split; [reflexivity |]. split; [reflexivity |]. split; [reflexivity |].
  split; [exact (cube2np_ok p HE) |].
  split; [reflexivity |].
  split; [| split].
  - unfold tensor_of. apply Forall_map. apply Forall_forall. intros f Hf.
    destruct (faces_3x3 HE p f Hf) as [Hlen Hrows].
    split; [now rewrite length_map |].
    apply Forall_map. eapply Forall_impl; [| exact Hrows].
    intros row [Hrow Hcells]. split; [now rewrite length_map |].
    apply Forall_map. eapply Forall_impl; [| exact Hcells].
    intros x Hx. now apply palette_index_spec.
  - apply Forall_forall. intros f Hf.
    destruct (faces_3x3 HE p f Hf) as [_ Hrows].
    eapply Forall_impl; [| exact Hrows].
    intros row [_ Hcells]. eapply Forall_impl; [| exact Hcells].
    intros x Hx. now apply palette_index_spec.
  - set (scores := model_predict (List.concat (tensor_of p))).
    assert (Hlen : List.length scores = 18) by apply (predict_18 HE).
    destruct (argmax_spec scores) as (i & Hi & Hlt & Hmax & _).
    { intros Hnil. rewrite Hnil in Hlen. discriminate. }
    rewrite Hlen in Hlt, Hmax.
    exists i. split; [exact Hi |]. split; [exact Hlt |]. split; [exact Hmax |].
    destruct (convert_ok p HE) as (i' & Hi' & _ & Hconv & _).
    fold scores in Hi'. rewrite Hi in Hi'. inversion Hi'; subst i'.
    exact Hconv.
Qed.

End SolveProperties.

Example demo_solve_moves :
  fst (IC.predict_moves 10 [] (@IC.init Demo.external 3))
  = Ok ["R"; "R"; "R"; "R"]%string.
Proof. vm_compute. reflexivity. Qed.

Lemma solve_applies_at_most_ten_moves_witness :
  externals_ok Demo.external /\
  exists (moves : list string) (p' : @PC Demo.external),
    IC.predict_moves 10 [] (@IC.init Demo.external 3) = (Ok moves, IC.set_pycuber_rep p' (@IC.init Demo.external 3)) /\
    predicted 10 (IC._pycuber_rep (@IC.init Demo.external 3)) moves p' /\
    1 <= List.length moves <= 10 /\
    (List.length moves < 10 -> pc_eq p' pc_Cube = true) /\
    IC._solve_cube_NN (@IC.init Demo.external 3)
    = for_each moves IC.turn_token
        (IC.set_solutionLabel (Some moves) (IC.set_pycuber_rep p' (@IC.init Demo.external 3))).
Proof.
  split; [exact demo_externals_ok |].
  exact (solve_applies_at_most_ten_moves (@IC.init Demo.external 3) demo_externals_ok).
Defined.

Lemma solve_on_solved_cube_still_moves_witness :
  pc_eq (IC._pycuber_rep (@IC.init Demo.external 3)) pc_Cube = true /\
  exists (move : string) (rest : list string) (p1 p' : @PC Demo.external),
    IC._convertPycubeToMove (IC._pycuber_rep (@IC.init Demo.external 3)) = Ok move /\
    pc_call move (IC._pycuber_rep (@IC.init Demo.external 3)) = (Ok tt, p1) /\
    (pc_eq p1 pc_Cube = true -> rest = [] /\ p' = p1) /\
    IC.predict_moves 10 [] (@IC.init Demo.external 3)
    = (Ok (move :: rest), IC.set_pycuber_rep p' (@IC.init Demo.external 3)) /\
    IC._solve_cube_NN (@IC.init Demo.external 3)
    = for_each (move :: rest) IC.turn_token
        (IC.set_solutionLabel (Some (move :: rest))
                              (IC.set_pycuber_rep p' (@IC.init Demo.external 3))).
Proof.
  split; [reflexivity |].
  apply (solve_on_solved_cube_still_moves (@IC.init Demo.external 3) demo_externals_ok).
  reflexivity.
Defined.

(** ** Scrambles *)

Lemma good_step_id : good_step (fun c => c).
Proof.
  split; [reflexivity |]. split; [auto |]. split; [| auto].
  exists []. intros c. now rewrite app_nil_r.
Qed.

Lemma good_step_compose (g h : Cube.t -> Cube.t) :
  good_step g -> good_step h -> good_step (fun c => h (g c)).
Proof.
  intros (HN & Hg & [L HL] & Hc) (HN' & Hg' & [L' HL'] & Hc').
  split; [| split; [| split]].
  - intros c. now rewrite HN', HN.
  - intros c c' H. now apply Hg', Hg.
  - exists (L ++ L')%list. intros c. now rewrite HL', HL, app_assoc.
  - intros c Hpos Hcons. apply Hc'; [now rewrite HN | now apply Hc].
Qed.

Lemma good_step_fold {X : Type} (h : Cube.t -> X -> Cube.t) (xs : list X) :
  Forall (fun x => good_step (fun c => h c x)) xs ->
  good_step (fun c => fold_left h xs c).
Proof.
  induction 1 as [| x xs Hx _ IH]; [apply good_step_id |].
  cbn [fold_left].
  exact (good_step_compose (fun c => h c x) (fun c => fold_left h xs c) Hx IH).
Qed.

Lemma rotated_move_list (f : string) (v : vec) (t l : Z) (c : Cube.t) :
  Cube._move_list (rotated f v (inject_Z t) l 5 c)
  = (Cube._move_list c
     ++ (if (t =? 0)%Z then []
         else repeat (f, (inject_Z t * 1 / inject_Z (Z.of_nat 5))%Q, l) 5))%list.
Proof.
  unfold rotated. rewrite allclose0_int.
  destruct (Z.eqb_spec t 0) as [-> | Ht]; [now rewrite app_nil_r |].
  rewrite iter_turned_move_list.
  now rewrite fraction_nonzero by (auto; lia).
Qed.

Lemma good_step_request (r : string * Z) : good_step (fun c => request_cube c r).
Proof.
  destruct r as [f t]. unfold request_cube.
  destruct (Cube.lookup f Cube.facesdict) as [v |] eqn:Hf; [| apply good_step_id].
  split; [| split; [| split]].
  - intros c. apply rotated_N.
  - intros c c' H. now apply rotated_congr.
  - eexists. intros c. apply rotated_move_list.
  - intros c Hpos Hc. apply rotated_consistent; auto.
    unfold valid_layer. lia.
Qed.

Lemma good_step_token (tok : string) : good_step (fun c => token_cube c tok).
Proof.
  unfold token_cube. destruct (token_turns tok) as [reqs | e];
    [| apply good_step_id].
  apply good_step_fold. apply Forall_forall. intros r _.
  apply good_step_request.
Qed.


Lemma token_turns_vocabulary (tok : string) :
  In tok possible_moves ->
  exists reqs,
    token_turns tok = Ok reqs /\
    Forall (fun r : string * Z => valid_face (fst r)) reqs.
Proof.
  intros Hin. unfold possible_moves in Hin. simpl in Hin.
  repeat (destruct Hin as [<- | Hin];
          [eexists; split; [reflexivity |];
           repeat (apply Forall_cons; [eexists; reflexivity |]);
           apply Forall_nil |]).
  contradiction.
Qed.

Lemma generate_game_spec (n : nat) (draws : nat -> nat) :
  List.length (generate_game n draws) = n /\
  Forall (fun tok => In tok possible_moves) (generate_game n draws).
Proof.
  unfold generate_game. split.
  - now rewrite length_map, length_seq.
  - apply Forall_map. apply Forall_forall. intros j _.
    apply nth_In. unfold randint.
    change (List.length possible_moves) with 18.
    pose proof (Nat.mod_upper_bound (draws j) (17 - 0 + 1) ltac:(simpl; lia)).
    simpl in *. lia.
Qed.

Section ScrambleFacts.

Context {E : External}.

Lemma make_requests_ok (reqs : list (string * Z)) (s : IC.t) :
  Forall (fun r : string * Z => valid_face (fst r)) reqs ->
  0 < Cube.N (IC.cube s) ->
  make_requests reqs s
  = (Ok tt, IC.set_cube (fold_left request_cube reqs (IC.cube s)) s).
Proof.
  intros Hall. revert s. induction Hall as [| [f t] reqs [v Hf] _ IH]; intros s HN.
  - simpl. unfold ret. now rewrite set_cube_cube.
  - unfold make_requests. cbn [for_each]. unfold bind.
    cbn [fst] in Hf.
    rewrite (rotate_face_ok f v (inject_Z t) 0 5 s Hf)
      by (unfold valid_layer; lia).
    unfold make_requests in IH. rewrite IH.
    + cbn [IC.cube IC.set_cube fold_left]. rewrite set_cube_set_cube.
      assert (Hr : request_cube (IC.cube s) (f, t)
                   = rotated f v (inject_Z t) 0 5 (IC.cube s)).
      { unfold request_cube. now rewrite Hf. }
      now rewrite Hr.
    + cbn [IC.cube IC.set_cube]. now rewrite rotated_N.
Qed.

Lemma turn_token_ok (tok : string) (s : IC.t) :
  In tok possible_moves -> 0 < Cube.N (IC.cube s) ->
  IC.turn_token tok s = (Ok tt, IC.set_cube (token_cube (IC.cube s) tok) s).
Proof.
  intros Hin HN. rewrite turn_token_requests.
  destruct (token_turns_vocabulary tok Hin) as (reqs & Hreqs & Hall).
  unfold token_cube. rewrite Hreqs. now apply make_requests_ok.
Qed.

Lemma turn_tokens_ok (toks : list string) (s : IC.t) :
  Forall (fun tok => In tok possible_moves) toks -> 0 < Cube.N (IC.cube s) ->
  for_each toks IC.turn_token s
  = (Ok tt, IC.set_cube (tokens_cube toks (IC.cube s)) s).
Proof.
  intros Hall. revert s. induction Hall as [| tok toks Hin _ IH]; intros s HN.
  - simpl. unfold ret. now rewrite set_cube_cube.
  - cbn [for_each]. unfold bind. rewrite (turn_token_ok tok s Hin HN).
    rewrite IH.
    + cbn [IC.cube IC.set_cube]. now rewrite set_cube_set_cube.
    + cbn [IC.cube IC.set_cube].
      now rewrite (proj1 (good_step_token tok)).
Qed.


End ScrambleFacts.

Section ShuffleProperties.

Context {E : External}.


End ShuffleProperties.




Lemma predictor_boundary_encoding_witness :
  externals_ok Demo.external /\
  faces = ["L"; "U"; "R"; "D"; "F"; "B"]%string /\
  List.length colors = 6 /\
  possible_moves
  = ["R"; "R'"; "R2"; "U"; "U'"; "U2"; "F"; "F'"; "F2";
     "D"; "D'"; "D2"; "B"; "B'"; "B2"; "L"; "L'"; "L2"]%string /\
  @IC.cube2np Demo.external Demo.pc_Cube
  = Ok (map (fun f => map (map palette_index)
                          (@pc_get_face Demo.external Demo.pc_Cube f)) faces) /\
  List.length (@tensor_of Demo.external Demo.pc_Cube) = 6 /\
  Forall (fun face : list (list nat) =>
            List.length face = 3 /\
            Forall (fun row : list nat =>
                      List.length row = 3 /\ Forall (fun c => c < 6) row) face)
         (@tensor_of Demo.external Demo.pc_Cube) /\
  Forall (fun f : string =>
            Forall (fun row : list string =>
                      Forall (fun x : string =>
                                nth (palette_index x) colors ""%string = x) row)
                   (@pc_get_face Demo.external Demo.pc_Cube f))
         faces /\
  exists i : nat,
    argmax (@model_predict Demo.external
              (List.concat (@tensor_of Demo.external Demo.pc_Cube))) = Ok i /\
    i < 18 /\
    (forall k, k < 18 ->
       (nth k (@model_predict Demo.external
                 (List.concat (@tensor_of Demo.external Demo.pc_Cube))) 0
        <= nth i (@model_predict Demo.external
                    (List.concat (@tensor_of Demo.external Demo.pc_Cube))) 0)%Q) /\
    @IC._convertPycubeToMove Demo.external Demo.pc_Cube
    = Ok (nth i possible_moves ""%string).
Proof.
  split; [exact demo_externals_ok |].
  exact (@predictor_boundary_encoding Demo.external Demo.pc_Cube
           demo_externals_ok).
Defined.

(** ** Every state of the controller agrees with its history *)

Lemma preserves_ret {S A : Type} (P : S -> Prop) (a : A) :
  preserves P (ret a).
Proof. intros s r s' H Hs. inversion H; subst. exact Hs. Qed.

Lemma preserves_raise {S A : Type} (P : S -> Prop) (e : Error) :
  preserves P (@raise S A e).
Proof. intros s r s' H Hs. inversion H; subst. exact Hs. Qed.

Lemma preserves_get {S : Type} (P : S -> Prop) : preserves P (@get S).
Proof. intros s r s' H Hs. inversion H; subst. exact Hs. Qed.

Lemma preserves_bind {S A B : Type} (P : S -> Prop) (m : M S A) (k : A -> M S B) :
  preserves P m -> (forall a, preserves P (k a)) -> preserves P (bind m k).
Proof.
  intros Hm Hk s r s' H Hs. unfold bind in H.
  destruct (m s) as [[a | e] s1] eqn:Hms.
  - apply (Hk a s1 r s' H). exact (Hm s _ s1 Hms Hs).
  - inversion H; subst. exact (Hm s _ s' Hms Hs).
Qed.

Lemma preserves_for_each {S X : Type} (P : S -> Prop) (xs : list X)
      (body : X -> M S unit) :
  (forall x, preserves P (body x)) -> preserves P (for_each xs body).
Proof.
  intros Hb. induction xs as [| x xs IH]; cbn [for_each].
  - apply preserves_ret.
  - apply preserves_bind; [apply Hb | intros _; exact IH].
Qed.

Lemma preserves_repeat_n {S : Type} (P : S -> Prop) (n : nat) (body : M S unit) :
  preserves P body -> preserves P (repeat_n n body).
Proof.
  intros Hb. induction n as [| n IH]; cbn [repeat_n].
  - apply preserves_ret.
  - apply preserves_bind; [exact Hb | intros _; exact IH].
Qed.

Lemma turned_consistent (f : string) (v : vec) (a : Q) (l : Z) (c : Cube.t) :
  Cube.lookup f Cube.facesdict = Some v -> valid_layer (Cube.N c) l ->
  allclose0 (- a) = false ->
  consistent c -> consistent (Cube.turned f v a l c).
Proof.
  intros Hf Hl Ha [Hok Hgeo]. split.
  - rewrite turned_move_list, turned_N. apply Forall_app. split; [exact Hok |].
    destruct (Qeq_bool a 0); constructor; [| constructor].
    repeat split; try apply Hl; [now exists v | exact Ha].
  - rewrite turned_move_list, turned_N, fold_left_app.
    destruct (Qeq_bool a 0) eqn:Hz.
    + cbn [fold_left]. apply Qeq_bool_iff in Hz.
      eapply same_geometry_trans; [now apply turned_zero | exact Hgeo].
    + cbn [fold_left]. unfold apply_entry at 1. rewrite Hf.
      apply turned_congr; [exact Hgeo | reflexivity].
Qed.

Section Reachable.

Context {E : External}.

Lemma preserves_same_cube {A : Type} (m : M IC.t A) :
  (forall s r s', m s = (r, s') -> IC.cube s' = IC.cube s) ->
  preserves cube_consistent m.
Proof.
  intros H s r s' Hm Hs. unfold cube_consistent. now rewrite (H s r s' Hm).
Qed.

Lemma preserves_modify (g : IC.t -> IC.t) :
  (forall s, IC.cube (g s) = IC.cube s) ->
  preserves cube_consistent (IC.modify g).
Proof.
  intros Hg. apply preserves_same_cube. intros s r s' H.
  inversion H; subst. apply Hg.
Qed.

Lemma preserves_on_pycuber {A : Type} (m : M PC A) :
  preserves cube_consistent (IC.on_pycuber m).
Proof.
  apply preserves_same_cube. intros s r s' H. unfold IC.on_pycuber in H.
  destruct (m (IC._pycuber_rep s)) as [r1 p]. inversion H; subst. reflexivity.
Qed.

Lemma preserves_lift {A : Type} (o : outcome A) :
  preserves cube_consistent (IC.lift o).
Proof.
  apply preserves_same_cube. intros s r s' H. inversion H; subst. reflexivity.
Qed.

Lemma preserves_cube_rotate (f : string) (a : Q) (l : Z) :
  allclose0 (- a) = false ->
  preserves cube_consistent (IC.on_cube (Cube.rotate_face f a l)).
Proof.
  intros Ha s r s' H Hs. unfold IC.on_cube, Cube.rotate_face in H.
  unfold cube_consistent in *.
  destruct (Cube.lookup f Cube.facesdict) as [v |] eqn:Hf.
  - destruct (Z.ltb_spec l 0) as [Hneg | Hpos]; cbn [orb] in H.
    + inversion H; subst. exact Hs.
    + destruct (Z.leb_spec (Z.of_nat (Cube.N (IC.cube s))) l) as [Hbig | Hin].
      * inversion H; subst. exact Hs.
      * inversion H; subst. cbn [IC.cube IC.set_cube].
        apply turned_consistent; auto. unfold valid_layer. lia.
  - inversion H; subst. exact Hs.
Qed.

Lemma preserves_rotate_face (f : string) (t l : Z) :
  preserves cube_consistent (IC.rotate_face f (inject_Z t) l 5).
Proof.
  unfold IC.rotate_face. rewrite allclose0_int.
  destruct (Z.eqb_spec t 0) as [-> | Ht]; cbn [negb].
  - apply preserves_ret.
  - apply preserves_repeat_n, preserves_cube_rotate.
    apply allclose0_fraction; auto; lia.
Qed.

Lemma preserves_turn_token (j : string) :
  preserves cube_consistent (IC.turn_token j).
Proof.
  unfold IC.turn_token.
  pose proof (preserves_rotate_face) as Hrot.
  destruct (String.length j =? 1).
  - apply preserves_bind; [apply preserves_lift |]. intros f.
    apply (Hrot f 1%Z 0%Z).
  - apply preserves_bind; [apply preserves_lift |]. intros c.
    destruct (String.eqb c "'").
    + apply preserves_bind; [apply preserves_lift |]. intros f.
      apply (Hrot f (-1)%Z 0%Z).
    + destruct (String.eqb c "2"); [| apply preserves_ret].
      apply preserves_bind; [apply preserves_lift |]. intros f.
      apply preserves_bind; [apply (Hrot f 1%Z 0%Z) |]. intros _.
      apply preserves_bind; [apply preserves_lift |]. intros f'.
      apply (Hrot f' 1%Z 0%Z).
Qed.

Lemma preserves_reset_cube : preserves cube_consistent IC._reset_cube.
Proof.
  intros s r s' H Hs. unfold cube_consistent in *.
  destruct (reset_consistent s Hs) as (s1 & Hrun & Hgeo & Hml & _).
  rewrite Hrun in H. inversion H; subst s1.
  split.
  - rewrite Hml. constructor.
  - rewrite Hml. cbn [fold_left].
    destruct Hgeo as (HN & HS & HA). rewrite HN.
    repeat split; auto.
Qed.

Lemma preserves_predict_moves (n : nat) (moves : list string) :
  preserves cube_consistent (IC.predict_moves n moves).
Proof.
  revert moves. induction n as [| n IH]; intros moves; cbn [IC.predict_moves].
  - apply preserves_ret.
  - apply preserves_bind; [apply preserves_get |]. intros s0.
    apply preserves_bind; [apply preserves_lift |]. intros move.
    apply preserves_bind; [apply preserves_on_pycuber |]. intros _.
    apply preserves_bind; [apply preserves_get |]. intros s1.
    destruct (pc_eq (IC._pycuber_rep s1) pc_Cube);
      [apply preserves_ret | apply IH].
Qed.

Lemma preserves_solve_cube_NN : preserves cube_consistent IC._solve_cube_NN.
Proof.
  unfold IC._solve_cube_NN.
  apply preserves_bind; [apply preserves_predict_moves |]. intros moves.
  apply preserves_bind; [now apply preserves_modify |]. intros _.
  apply preserves_for_each. apply preserves_turn_token.
Qed.

Lemma preserves_shuffle_cube (draws : nat -> nat) :
  preserves cube_consistent (IC._shuffle_cube draws).
Proof.
  unfold IC._shuffle_cube.
  apply preserves_bind; [apply preserves_reset_cube |]. intros _.
  apply preserves_bind; [now apply preserves_modify |]. intros _.
  apply preserves_bind; [now apply preserves_modify |]. intros _.
  apply preserves_for_each. intros j.
  apply preserves_bind; [apply preserves_on_pycuber |]. intros _.
  apply preserves_turn_token.
Qed.

Lemma preserves_key_press (key : string) :
  preserves cube_consistent (IC._key_press key).
Proof.
  unfold IC._key_press.
  destruct (isdigit key).
  { apply preserves_bind; [apply preserves_get |]. intros s0.
    destruct (int_of key <? List.length (IC._digit_flags s0));
      [now apply preserves_modify | apply preserves_raise]. }
  destruct (String.eqb key "right" || String.eqb key "shift+right");
    [apply preserves_ret |].
  destruct (String.eqb key "shift+left" || String.eqb key "left");
    [apply preserves_ret |].
  destruct (String.eqb key "up"); [apply preserves_ret |].
  destruct (String.eqb key "down"); [apply preserves_ret |].
  destruct (str_in (upper key) "LRUDBF"); [| apply preserves_ret].
  apply preserves_bind; [apply preserves_get |]. intros s0.
  apply preserves_bind.
  - destruct (existsb (fun b => b) (firstn (Cube.N (IC.cube s0)) (IC._digit_flags s0))).
    + destruct (List.length (firstn (Cube.N (IC.cube s0)) (IC._digit_flags s0))
                <? Cube.N (IC.cube s0));
        [apply preserves_raise |].
      apply preserves_for_each. intros d.
      apply preserves_bind; [apply preserves_rotate_face |]. intros _.
      apply preserves_on_pycuber.
    + apply preserves_bind; [apply (preserves_rotate_face _ _ 0%Z) |]. intros _.
      apply preserves_on_pycuber.
  - intros _. apply preserves_bind; [apply preserves_get |]. intros s1.
    apply preserves_bind; [now apply preserves_modify |]. intros _.
    now apply preserves_modify.
Qed.

(** Every state of the controller has a cube that agrees with its history. *)
Lemma reachable_consistent (s : IC.t) : reachable s -> consistent (IC.cube s).
Proof.
  induction 1 as [n | f t l s s' r _ IH Hrun | key s s' r _ IH Hrun
                  | s s' r _ IH Hrun | draws s s' r _ IH Hrun
                  | s s' r _ IH Hrun].
  - apply init_consistent.
  - exact (preserves_rotate_face f t l s r s' Hrun IH).
  - exact (preserves_key_press key s r s' Hrun IH).
  - exact (preserves_reset_cube s r s' Hrun IH).
  - exact (preserves_shuffle_cube draws s r s' Hrun IH).
  - exact (preserves_solve_cube_NN s r s' Hrun IH).
Qed.

(** In every state of the controller [_reset_cube] returns, and leaves the
    solved arrangement and an empty history. *)
Lemma reset_of_reachable (s : IC.t) :
  reachable s ->
  exists s',
    IC._reset_cube s = (Ok tt, s') /\
    Cube._stickers (IC.cube s') = Cube._stickers (Cube.init (Cube.N (IC.cube s))) /\
    Cube._move_list (IC.cube s') = [].
Proof.
  intros Hs.
  destruct (reset_consistent s (reachable_consistent s Hs))
    as (s' & Hrun & (_ & HS & _) & Hml & _).
  exists s'. auto.
Qed.

End Reachable.

Section ShuffleFromAnyState.

Context {E : External}.


End ShuffleFromAnyState.


Example demo_scramble :
  generate_game max_moves (fun j => 7 * j + 2)
  = ["R2"; "D"; "L'"; "U2"; "B"; "R'"]%string.
Proof. reflexivity. Qed.

(** The cube model on a known identity: six times [R U R' U'] brings the
    solved 3x3x3 cube back, once does not. *)
Example six_sexy_moves_restore :
  let sexy := ["R"; "U"; "R'"; "U'"]%string in
  Cube._stickers
    (tokens_cube (sexy ++ sexy ++ sexy ++ sexy ++ sexy ++ sexy) (Cube.init 3))
  = Cube._stickers (Cube.init 3) /\
  Cube._stickers (tokens_cube sexy (Cube.init 3))
  <> Cube._stickers (Cube.init 3).
Proof. split; [vm_compute; reflexivity | vm_compute; discriminate]. Qed.

(** * Further properties of the source *)

(** ** [cube2np]: when it returns, what it returns, how it fails *)

Lemma list_index_Some (x : string) (l : list string) (c : nat) :
  list_index x l = Some c -> In x l.
Proof.
  revert c. induction l as [| y l IH]; intros c H; [discriminate |].
  simpl in H. destruct (String.eqb_spec x y) as [-> | Hne]; [now left |].
  destruct (list_index x l) as [c' |]; [| discriminate].
  right. now apply (IH c').
Qed.

Lemma list_index_None (x : string) (l : list string) :
  list_index x l = None -> ~ In x l.
Proof.
  intros H Hin. destruct (list_index_In x l Hin) as (c & Hc & _). congruence.
Qed.

Lemma set_nth_length {A : Type} (k : nat) (c : A) (a : list A) :
  List.length (set_nth k c a) = List.length a.
Proof.
  revert k. induction a as [| x a IH]; intros [| k]; simpl; auto.
Qed.

Lemma firstn_set_nth {A : Type} (k : nat) (c : A) (a : list A) :
  k < List.length a -> firstn (S k) (set_nth k c a) = (firstn k a ++ [c])%list.
Proof.
  revert k. induction a as [| x a IH]; intros k Hk; [simpl in Hk; lia |].
  destruct k as [| k]; [reflexivity |].
  simpl in Hk. cbn [set_nth]. rewrite (firstn_cons (S k)), IH by lia.
  reflexivity.
Qed.

Lemma skipn_set_nth {A : Type} (k m : nat) (c : A) (a : list A) :
  k < m -> skipn m (set_nth k c a) = skipn m a.
Proof.
  revert k m. induction a as [| x a IH]; intros k m Hk.
  - destruct k; reflexivity.
  - destruct m as [| m]; [lia |].
    destruct k as [| k]; [reflexivity |].
    cbn [set_nth skipn]. apply IH. lia.
Qed.

(** The inner loop from cell [k] on, over cells that are long enough. *)
Lemma fill_row_from (k : nat) (row : list string) (cells : list nat) :
  k + List.length row <= List.length cells ->
  Forall (fun x => In x colors) row ->
  fill_row k row cells
  = Ok (firstn k cells ++ map palette_index row
        ++ skipn (k + List.length row) cells)%list.
Proof.
  revert k cells. induction row as [| x row IH]; intros k cells Hlen Hall.
  - simpl. rewrite Nat.add_0_r. now rewrite firstn_skipn.
  - inversion Hall as [| ? ? Hx Hall']; subst.
    destruct (palette_index_spec x Hx) as (Hidx & _ & _).
    cbn [fill_row]. rewrite Hidx. simpl List.length in Hlen.
    destruct (Nat.ltb_spec k (List.length cells)) as [Hk | Hk]; [| lia].
    rewrite IH; [| rewrite set_nth_length; lia | assumption].
    rewrite firstn_set_nth by exact Hk.
    rewrite skipn_set_nth by lia.
    cbn [map List.length]. rewrite <- app_assoc. cbn [app].
    replace (S k + List.length row) with (k + S (List.length row)) by lia.
    reflexivity.
Qed.

Lemma skipn_zeros (n : nat) : skipn n [0; 0; 0] = repeat 0 (3 - n).
Proof. destruct n as [| [| [| [| n]]]]; reflexivity. Qed.

(** A row is encoded exactly when it has at most 3 squares, all in palette
    colours; the cells past a short row stay 0. *)
Lemma fill_row_iff (row : list string) (cells : list nat) :
  fill_row 0 row [0; 0; 0] = Ok cells
  <-> row_encodable row /\ cells = encode_row row.
Proof.
  split.
  - intros H.
    assert (Hrow : row_encodable row).
    { pose proof list_index_Some as HS.
      destruct row as [| a [| b [| c [| d row]]]];
        cbn [fill_row] in H;
        repeat match type of H with
               | context [list_index ?x colors] =>
                   let Hx := fresh "Hx" in
                   destruct (list_index x colors) eqn:Hx; [| discriminate H];
                   cbn [fill_row List.length Nat.ltb Nat.leb set_nth] in H
               end;
        try discriminate H;
        (split; [simpl; lia |]);
        repeat (apply Forall_cons; [eapply HS; eassumption |]);
        apply Forall_nil. }
    split; [exact Hrow |].
    destruct Hrow as [Hlen Hall].
    rewrite (fill_row_from 0 row [0; 0; 0]) in H by (simpl; auto).
    injection H as <-. unfold encode_row. cbn [firstn app Nat.add].
    now rewrite skipn_zeros.
  - intros [[Hlen Hall] ->].
    rewrite (fill_row_from 0 row [0; 0; 0]) by (simpl; auto).
    unfold encode_row. cbn [firstn app Nat.add].
    now rewrite skipn_zeros.
Qed.

Lemma fill_face_iff (rows : list (list string)) (out : list (list nat)) :
  fill_face [0; 1; 2] rows = Ok out
  <-> face_encodable rows /\ out = encode_face rows.
Proof.
  unfold face_encodable, encode_face.
  destruct rows as [| r0 [| r1 [| r2 rest]]].
  - split; [discriminate | intros [[H _] _]; simpl in H; lia].
  - split; [| intros [[H _] _]; simpl in H; lia].
    cbn [fill_face nth_error].
    destruct (fill_row 0 r0 [0; 0; 0]); discriminate.
  - split; [| intros [[H _] _]; simpl in H; lia].
    cbn [fill_face nth_error].
    destruct (fill_row 0 r0 [0; 0; 0]); [| discriminate].
    destruct (fill_row 0 r1 [0; 0; 0]); discriminate.
  - cbn [fill_face nth_error firstn map List.length].
    split.
    + destruct (fill_row 0 r0 [0; 0; 0]) as [c0 |] eqn:H0; [| discriminate].
      destruct (fill_row 0 r1 [0; 0; 0]) as [c1 |] eqn:H1; [| discriminate].
      destruct (fill_row 0 r2 [0; 0; 0]) as [c2 |] eqn:H2; [| discriminate].
      apply fill_row_iff in H0 as [E0 ->].
      apply fill_row_iff in H1 as [E1 ->].
      apply fill_row_iff in H2 as [E2 ->].
      intros H. injection H as <-.
      split; [| reflexivity]. split; [lia |].
      repeat (apply Forall_cons; [assumption |]). apply Forall_nil.
    + intros [[_ Hall] ->].
      inversion Hall as [| ? ? E0 Hall1]; subst.
      inversion Hall1 as [| ? ? E1 Hall2]; subst.
      inversion Hall2 as [| ? ? E2 _]; subst.
      rewrite (proj2 (fill_row_iff r0 _) (conj E0 eq_refl)).
      rewrite (proj2 (fill_row_iff r1 _) (conj E1 eq_refl)).
      rewrite (proj2 (fill_row_iff r2 _) (conj E2 eq_refl)).
      reflexivity.
Qed.

Lemma encode_row_shape (row : list string) :
  row_encodable row ->
  List.length (encode_row row) = 3 /\ Forall (fun c => c < 6) (encode_row row).
Proof.
  intros [Hlen Hall]. unfold encode_row. split.
  - rewrite length_app, length_map, repeat_length. lia.
  - apply Forall_app. split.
    + apply Forall_map. eapply Forall_impl; [| exact Hall].
      intros x Hx. now apply palette_index_spec.
    + apply Forall_forall. intros c Hc. apply repeat_spec in Hc. lia.
Qed.

Lemma fill_row_raises (k : nat) (row : list string) (cells : list nat) (e : Error) :
  fill_row k row cells = Raise e ->
  e = IndexError \/
  (e = ValueError /\ exists x, In x row /\ ~ In x colors).
Proof.
  revert k cells. induction row as [| x row IH]; intros k cells H;
    [discriminate |].
  cbn [fill_row] in H.
  destruct (list_index x colors) as [c |] eqn:Hx.
  - destruct (k <? List.length cells).
    + destruct (IH _ _ H) as [-> | [-> (y & Hy & Hny)]]; [now left |].
      right. split; [reflexivity |]. exists y. split; [now right | exact Hny].
    + injection H as <-. now left.
  - injection H as <-. right. split; [reflexivity |].
    exists x. split; [now left | now apply list_index_None].
Qed.

Lemma fill_face_raises (js : list nat) (rows : list (list string)) (e : Error) :
  fill_face js rows = Raise e ->
  e = IndexError \/
  (e = ValueError /\
   exists row x, In row rows /\ In x row /\ ~ In x colors).
Proof.
  induction js as [| j js IH]; intros H; [discriminate |].
  cbn [fill_face] in H.
  destruct (nth_error rows j) as [row |] eqn:Hj;
    [| injection H as <-; now left].
  destruct (fill_row 0 row [0; 0; 0]) as [cells | e'] eqn:Hrow.
  - destruct (fill_face js rows) as [rest | e''] eqn:Hrest; [discriminate |].
    injection H as <-. now apply IH.
  - injection H as <-.
    destruct (fill_row_raises _ _ _ _ Hrow) as [-> | [-> (x & Hx & Hnx)]];
      [now left |].
    right. split; [reflexivity |]. exists row, x.
    split; [eapply nth_error_In; eauto | auto].
Qed.

Lemma palette_decode (rows : list (list string)) :
  Forall (fun row : list string => Forall (fun x => In x colors) row) rows ->
  map (map (fun i => nth i colors ""%string)) (map (map palette_index) rows)
  = rows.
Proof.
  intros H. rewrite map_map. rewrite <- (map_id rows) at 2.
  apply map_ext_in. intros row Hrow.
  rewrite Forall_forall in H. specialize (H row Hrow).
  rewrite map_map. rewrite <- (map_id row) at 2.
  apply map_ext_in. intros x Hx.
  rewrite Forall_forall in H. now apply palette_index_spec, H.
Qed.

Section Cube2npProperties.

Context {E : External}.

Lemma cube2np_faces_iff (p : PC) (fs : list string)
      (t : list (list (list nat))) :
  IC.cube2np_faces p fs = Ok t
  <-> Forall (fun f => face_encodable (pc_get_face p f)) fs /\
      t = map (fun f => encode_face (pc_get_face p f)) fs.
Proof.
  revert t. induction fs as [| f fs IH]; intros t.
  - simpl. split.
    + intros H. injection H as <-. split; [constructor | reflexivity].
    + intros [_ ->]. reflexivity.
  - cbn [IC.cube2np_faces map]. split.
    + destruct (fill_face [0; 1; 2] (pc_get_face p f)) as [a |] eqn:Ha;
        [| discriminate].
      destruct (IC.cube2np_faces p fs) as [rest |] eqn:Hr; [| discriminate].
      apply fill_face_iff in Ha as [Ef ->].
      destruct (proj1 (IH rest) eq_refl) as [Efs ->].
      intros H. injection H as <-. split; [now constructor | reflexivity].
    + intros [Hall ->]. inversion Hall as [| ? ? Ef Efs]; subst.
      rewrite (proj2 (fill_face_iff _ _) (conj Ef eq_refl)).
      rewrite (proj2 (IH _) (conj Efs eq_refl)). reflexivity.
Qed.

(** X1.  [cube2np] returns exactly when each of the six faces has rows 0, 1
    and 2 and each of these rows has at most 3 squares, all in palette
    colours.  The array then holds their palette indices; a cell that a
    short row does not reach keeps the initial 0, which is also the index
    of [[r]]. *)
Theorem cube2np_returns_iff (p : PC) (t : list (list (list nat))) :
  IC.cube2np p = Ok t
  <-> Forall (fun f => face_encodable (pc_get_face p f)) faces /\
      t = map (fun f => encode_face (pc_get_face p f)) faces.
Proof. apply cube2np_faces_iff. Qed.

(** X2.  Whatever pycuber hands over, an array that [cube2np] returns has
    the fixed shape 6 x 3 x 3 and holds palette indices below 6. *)
Theorem cube2np_fixed_shape (p : PC) (t : list (list (list nat))) :
  IC.cube2np p = Ok t ->
  List.length t = 6 /\
  Forall (fun face : list (list nat) =>
            List.length face = 3 /\
            Forall (fun row : list nat =>
                      List.length row = 3 /\ Forall (fun c => c < 6) row) face)
         t.
Proof.
  intros H. apply cube2np_faces_iff in H as [Hall ->]. split.
  - now rewrite length_map.
  - apply Forall_map. eapply Forall_impl; [| exact Hall].
    intros f [Hlen Hrows]. unfold encode_face. split.
    + rewrite length_map, length_firstn. lia.
    + apply Forall_map. eapply Forall_impl; [| exact Hrows].
      intros row Hrow. now apply encode_row_shape.
Qed.

(** X3.  [cube2np] fails in two ways only: with [ValueError] when some
    square of a face is in no palette colour, and with [IndexError]
    (a face with a missing row, or a row with a fourth square). *)
Theorem cube2np_raises (p : PC) (e : Error) :
  IC.cube2np p = Raise e ->
  e = IndexError \/
  (e = ValueError /\
   exists f row x,
     In f faces /\ In row (pc_get_face p f) /\ In x row /\ ~ In x colors).
Proof.
  unfold IC.cube2np. generalize faces as fs.
  induction fs as [| f fs IH]; intros H; [discriminate |].
  cbn [IC.cube2np_faces] in H.
  destruct (fill_face [0; 1; 2] (pc_get_face p f)) as [a | e'] eqn:Ha.
  - destruct (IC.cube2np_faces p fs) as [rest | e''] eqn:Hr; [discriminate |].
    injection H as <-.
    destruct (IH eq_refl) as [-> | [-> (g & row & x & Hg & Hrest)]];
      [now left |].
    right. split; [reflexivity |]. exists g, row, x. split; [now right | auto].
  - injection H as <-.
    destruct (fill_face_raises _ _ _ Ha) as [-> | [-> (row & x & Hrest)]];
      [now left |].
    right. split; [reflexivity |]. exists f, row, x. split; [now left | auto].
Qed.

(** X4.  On 3 x 3 faces in palette colours the encoding loses nothing: two
    pycuber cubes with the same array show the same squares on all six
    faces. *)
Theorem cube2np_injective (p q : PC) :
  externals_ok E -> IC.cube2np p = IC.cube2np q ->
  Forall (fun f => pc_get_face p f = pc_get_face q f) faces.
Proof.
  intros HE H. rewrite !(cube2np_ok _ HE) in H.
  assert (Ht : tensor_of p = tensor_of q).
  { remember (tensor_of p) as a. remember (tensor_of q) as b.
    now injection H. }
  unfold tensor_of in Ht.
  apply Forall_forall. intros f Hf.
  pose proof (ext_in_map Ht f Hf) as Hf'. cbn beta in Hf'.
  destruct (faces_3x3 HE p f Hf) as [_ Hp].
  destruct (faces_3x3 HE q f Hf) as [_ Hq].
  rewrite <- (palette_decode (pc_get_face p f)),
          <- (palette_decode (pc_get_face q f)).
  - now rewrite Hf'.
  - eapply Forall_impl; [| exact Hq]. now intros row [_ Hrow].
  - eapply Forall_impl; [| exact Hp]. now intros row [_ Hrow].
Qed.

End Cube2npProperties.

(** ** [_convertPycubeToMove]: the move it returns and how it fails *)

Lemma argmax_first (xs : list Q) (i : nat) :
  argmax xs = Ok i ->
  i < List.length xs /\
  (forall k, k < List.length xs -> (nth k xs 0 <= nth i xs 0)%Q) /\
  (forall k, k < i -> (nth k xs 0 < nth i xs 0)%Q).
Proof.
  intros H. destruct xs as [| x xs]; [discriminate |].
  destruct (argmax_spec (x :: xs) ltac:(discriminate)) as (j & Hj & Hspec).
  rewrite H in Hj. injection Hj as <-. exact Hspec.
Qed.

Section ConvertProperties.

Context {E : External}.

(** X5.  Whatever the model returns, a move that [_convertPycubeToMove]
    returns is one of the 18 tokens of [possible_moves], at the first index
    where the model's score is largest: every earlier token scores strictly
    less, no token scores more. *)
Theorem convert_returns_first_best (p : PC) (move : string) :
  IC._convertPycubeToMove p = Ok move ->
  In move possible_moves /\
  exists (t : list (list (list nat))) (i : nat),
    IC.cube2np p = Ok t /\
    i < 18 /\ nth_error possible_moves i = Some move /\
    (forall k, k < List.length (model_predict (List.concat t)) ->
       (nth k (model_predict (List.concat t)) 0
        <= nth i (model_predict (List.concat t)) 0)%Q) /\
    (forall k, k < i ->
       (nth k (model_predict (List.concat t)) 0
        < nth i (model_predict (List.concat t)) 0)%Q).
Proof.
  unfold IC._convertPycubeToMove. intros H.
  destruct (IC.cube2np p) as [t |] eqn:Ht; [| discriminate].
  destruct (argmax (model_predict (List.concat t))) as [i |] eqn:Hi;
    [| discriminate].
  destruct (nth_error possible_moves i) as [m |] eqn:Hm; [| discriminate].
  injection H as <-.
  destruct (argmax_first _ _ Hi) as (_ & Hmax & Hfirst).
  split; [eapply nth_error_In; eauto |].
  exists t, i. split; [reflexivity |].
  split; [| auto].
  change 18 with (List.length possible_moves).
  apply (proj1 (nth_error_Some possible_moves i)). rewrite Hm. discriminate.
Qed.

(** X6.  With a state that [cube2np] encodes, [_convertPycubeToMove] raises
    [ValueError] when the model returns no score at all and [IndexError]
    when the largest score stands at index 18 or beyond. *)
Theorem convert_raises_on_bad_scores (p : PC) (t : list (list (list nat))) :
  IC.cube2np p = Ok t ->
  (model_predict (List.concat t) = [] ->
   IC._convertPycubeToMove p = Raise ValueError) /\
  (forall i, argmax (model_predict (List.concat t)) = Ok i -> 18 <= i ->
             IC._convertPycubeToMove p = Raise IndexError).
Proof.
  intros Ht. unfold IC._convertPycubeToMove. rewrite Ht. split.
  - intros ->. reflexivity.
  - intros i Hi Hge. rewrite Hi.
    assert (Hn : nth_error possible_moves i = None)
      by (apply nth_error_None; exact Hge).
    now rewrite Hn.
Qed.

End ConvertProperties.

(** ** What a handler leaves alone *)

Section FrameFacts.

Context {E : External}.

Lemma keeps_on_cube {A : Type} (P : IC.t -> Prop) (m : M Cube.t A) :
  (forall s c, P s -> P (IC.set_cube c s)) -> preserves P (IC.on_cube m).
Proof.
  intros HP s r s' H Hs. unfold IC.on_cube in H.
  destruct (m (IC.cube s)) as [r1 c]. inversion H; subst. now apply HP.
Qed.

Lemma keeps_on_pycuber {A : Type} (P : IC.t -> Prop) (m : M PC A) :
  (forall s p, P s -> P (IC.set_pycuber_rep p s)) ->
  preserves P (IC.on_pycuber m).
Proof.
  intros HP s r s' H Hs. unfold IC.on_pycuber in H.
  destruct (m (IC._pycuber_rep s)) as [r1 p]. inversion H; subst. now apply HP.
Qed.

Lemma keeps_lift {A : Type} (P : IC.t -> Prop) (o : outcome A) :
  preserves P (IC.lift o).
Proof. intros s r s' H Hs. inversion H; subst. exact Hs. Qed.

Lemma keeps_modify (P : IC.t -> Prop) (g : IC.t -> IC.t) :
  (forall s, P s -> P (g s)) -> preserves P (IC.modify g).
Proof. intros HP s r s' H Hs. inversion H; subst. now apply HP. Qed.

Lemma keeps_rotate_face (P : IC.t -> Prop) (f : string) (turns : Q) (l : Z)
      (steps : nat) :
  (forall s c, P s -> P (IC.set_cube c s)) ->
  preserves P (IC.rotate_face f turns l steps).
Proof.
  intros HP. unfold IC.rotate_face.
  destruct (negb (allclose0 turns)); [| apply preserves_ret].
  apply preserves_repeat_n. now apply keeps_on_cube.
Qed.

Lemma keeps_turn_token (P : IC.t -> Prop) (j : string) :
  (forall s c, P s -> P (IC.set_cube c s)) ->
  preserves P (IC.turn_token j).
Proof.
  intros HP. unfold IC.turn_token.
  pose proof (fun f t => keeps_rotate_face P f t 0%Z 5 HP) as Hrot.
  destruct (String.length j =? 1).
  - apply preserves_bind; [apply keeps_lift |]. intros f. apply Hrot.
  - apply preserves_bind; [apply keeps_lift |]. intros c.
    destruct (String.eqb c "'").
    + apply preserves_bind; [apply keeps_lift |]. intros f. apply Hrot.
    + destruct (String.eqb c "2"); [| apply preserves_ret].
      apply preserves_bind; [apply keeps_lift |]. intros f.
      apply preserves_bind; [apply Hrot |]. intros _.
      apply preserves_bind; [apply keeps_lift |]. intros f'. apply Hrot.
Qed.

Lemma same_but_cube_refl (s : IC.t) : same_but_cube s s.
Proof. apply set_cube_cube. Qed.

Lemma same_but_cube_set_cube (s0 s : IC.t) (c : Cube.t) :
  same_but_cube s0 s -> same_but_cube s0 (IC.set_cube c s).
Proof.
  unfold same_but_cube. intros H. rewrite <- H. reflexivity.
Qed.

Lemma same_but_pycuber_refl (s : IC.t) : same_but_pycuber s s.
Proof. unfold same_but_pycuber. now destruct s. Qed.

Lemma same_but_pycuber_set (s0 s : IC.t) (p : PC) :
  same_but_pycuber s0 s -> same_but_pycuber s0 (IC.set_pycuber_rep p s).
Proof.
  unfold same_but_pycuber. intros H. rewrite <- H. reflexivity.
Qed.

(** X7.  Turning a token, of whatever spelling and whether it returns or
    raises, changes nothing of the controller but the displayed cube: the
    pycuber representation, the move list, the digit flags and both labels
    are as before. *)
Theorem turn_token_changes_cube_only (j : string) (s : IC.t) :
  IC._pycuber_rep (snd (IC.turn_token j s)) = IC._pycuber_rep s /\
  IC._moveList (snd (IC.turn_token j s)) = IC._moveList s /\
  IC._digit_flags (snd (IC.turn_token j s)) = IC._digit_flags s /\
  IC.scrambleLabel (snd (IC.turn_token j s)) = IC.scrambleLabel s /\
  IC.solutionLabel (snd (IC.turn_token j s)) = IC.solutionLabel s.
Proof.
  destruct (IC.turn_token j s) as [r s'] eqn:H.
  pose proof (keeps_turn_token (same_but_cube s) j
                (same_but_cube_set_cube s) s r s' H (same_but_cube_refl s))
    as Hs.
  unfold same_but_cube in Hs. cbn [snd]. rewrite <- Hs. repeat split.
Qed.

(** The token dispatch reads the first two characters only: an empty
    token raises [IndexError] and leaves the controller as it was, and a
    token of two or more characters is turned like its first two
    characters, whatever follows them. *)
Theorem turn_token_reads_two_characters
        (c0 c1 : ascii) (rest : string) (s : IC.t) :
  IC.turn_token "" s = (Raise IndexError, s) /\
  IC.turn_token (String c0 (String c1 rest)) s
  = IC.turn_token (String c0 (String c1 "")) s.
Proof. split; reflexivity. Qed.

Lemma keeps_predict_moves (P : IC.t -> Prop) (n : nat) (moves : list string) :
  (forall s p, P s -> P (IC.set_pycuber_rep p s)) ->
  preserves P (IC.predict_moves n moves).
Proof.
  intros HP. revert moves.
  induction n as [| n IH]; intros moves; cbn [IC.predict_moves].
  - apply preserves_ret.
  - apply preserves_bind; [apply preserves_get |]. intros s0.
    apply preserves_bind; [apply keeps_lift |]. intros move.
    apply preserves_bind; [now apply keeps_on_pycuber |]. intros _.
    apply preserves_bind; [apply preserves_get |]. intros s1.
    destruct (pc_eq (IC._pycuber_rep s1) pc_Cube);
      [apply preserves_ret | apply IH].
Qed.

(** X8.  The prediction loop of [_solve_cube_NN] touches the pycuber
    representation only.  So when it raises (the model or pycuber fails),
    [_solve_cube_NN] raises the same error having turned nothing: the
    displayed cube, its history, the move list and the labels are as
    before, while the pycuber representation keeps the moves already
    applied to it. *)
Theorem failed_prediction_leaves_cube (s : IC.t) (e : Error) :
  fst (IC.predict_moves 10 [] s) = Raise e ->
  fst (IC._solve_cube_NN s) = Raise e /\
  snd (IC._solve_cube_NN s) = snd (IC.predict_moves 10 [] s) /\
  snd (IC._solve_cube_NN s)
  = IC.set_pycuber_rep (IC._pycuber_rep (snd (IC._solve_cube_NN s))) s.
Proof.
  intros H.
  destruct (IC.predict_moves 10 [] s) as [[moves | e'] s'] eqn:Hrun;
    cbn [fst] in H; [discriminate |].
  injection H as ->.
  assert (Hsolve : IC._solve_cube_NN s = (Raise e, s')).
  { unfold IC._solve_cube_NN. unfold bind at 1. now rewrite Hrun. }
  rewrite Hsolve. cbn [fst snd].
  split; [reflexivity |]. split; [reflexivity |].
  pose proof (keeps_predict_moves (same_but_pycuber s) 10 []
                (same_but_pycuber_set s) s _ s' Hrun
                (same_but_pycuber_refl s)) as Hs.
  symmetry. exact Hs.
Qed.

End FrameFacts.

(** ** The buttons: what they reset, what they keep in step *)

Section ButtonProperties.

Context {E : External}.

Lemma reset_cube_run (s : IC.t) :
  Forall (entry_ok (Cube.N (IC.cube s))) (Cube._move_list (IC.cube s)) ->
  IC._reset_cube s
  = IC._resetLabels
      (IC.set_pycuber_rep pc_Cube
         (IC.set_cube
            (IC.clear_move_list
               (fold_left undo_entry (rev (Cube._move_list (IC.cube s)))
                          (IC.cube s))) s)).
Proof.
  intros H. unfold IC._reset_cube. unfold bind at 1.
  rewrite (replay_inverse_ok s H). reflexivity.
Qed.

Lemma reset_cube_of_reachable (s : IC.t) :
  reachable s ->
  exists s' : IC.t,
    IC._reset_cube s = (Ok tt, s') /\
    IC._pycuber_rep s' = pc_Cube /\
    IC._moveList s' = IC._moveList s /\
    IC._digit_flags s' = IC._digit_flags s /\
    IC.scrambleLabel s' = None /\
    IC.solutionLabel s'
    = match IC.scrambleLabel s with
      | Some _ => None
      | None => IC.solutionLabel s
      end /\
    Cube.N (IC.cube s') = Cube.N (IC.cube s).
Proof.
  intros Hs. destruct (reachable_consistent s Hs) as [Hok _].
  rewrite (reset_cube_run s Hok). unfold IC._resetLabels.
  cbn [IC.scrambleLabel IC.solutionLabel IC.set_pycuber_rep IC.set_cube
       IC.set_scrambleLabel].
  destruct (IC.scrambleLabel s) eqn:Hsc;
    [destruct (IC.solutionLabel s) eqn:Hsol |];
    eexists; (split; [reflexivity |]);
    cbn [IC._pycuber_rep IC._moveList IC._digit_flags IC.scrambleLabel
         IC.solutionLabel IC.set_solutionLabel IC.set_scrambleLabel
         IC.set_pycuber_rep IC.set_cube IC.cube IC.clear_move_list Cube.N];
    repeat split; auto using fold_undo_N.
Qed.

(** X9.  In every state of the controller, Reset Cube returns and sets the
    pycuber representation back to a fresh [pc.Cube()], but it does not
    clear the controller's own move list nor the digit flags; and it takes
    the solution label down only when a scramble label is up: with no
    scramble label, a solution label stays on display. *)
Theorem reset_cube_keeps_move_list_and_label (s : IC.t) :
  reachable s ->
  exists s' : IC.t,
    IC._reset_cube s = (Ok tt, s') /\
    IC._pycuber_rep s' = pc_Cube /\
    IC._moveList s' = IC._moveList s /\
    IC._digit_flags s' = IC._digit_flags s /\
    IC.scrambleLabel s' = None /\
    IC.solutionLabel s'
    = match IC.scrambleLabel s with
      | Some _ => None
      | None => IC.solutionLabel s
      end.
Proof.
  intros Hs.
  destruct (reset_cube_of_reachable s Hs)
    as (s' & H1 & H2 & H3 & H4 & H5 & H6 & _).
  exists s'. auto 10.
Qed.

Lemma predicted_pc_run (n : nat) (p p' : PC) (moves : list string) :
  predicted n p moves p' -> for_each moves pc_call p = (Ok tt, p').
Proof.
  induction 1 as [n p p' move _ Hcall _ | p p' move _ Hcall _
                  | n p p' p'' move moves _ Hcall _ _ IH];
    cbn [for_each]; unfold bind; rewrite Hcall; auto.
Qed.

(** X10.  Solve keeps the two cubes in step: when pycuber and the model
    behave and the cube has a layer 0, [_solve_cube_NN] returns, and the
    tokens it has turned on the displayed cube are the tokens it has
    applied to the pycuber representation, in the same order; the solution
    label shows them, and the move list is not touched. *)
Theorem solve_keeps_cubes_in_step (s : IC.t) :
  externals_ok E -> 0 < Cube.N (IC.cube s) ->
  exists (moves : list string) (p' : PC),
    for_each moves pc_call (IC._pycuber_rep s) = (Ok tt, p') /\
    IC._solve_cube_NN s
    = (Ok tt,
       IC.set_cube (tokens_cube moves (IC.cube s))
         (IC.set_solutionLabel (Some moves) (IC.set_pycuber_rep p' s))).
Proof.
  intros HE HN.
  destruct (predict_moves_spec 10 [] s HE ltac:(lia)) as (moves & p' & Hrun & Hp).
  cbn [app] in Hrun. exists moves, p'.
  split; [exact (predicted_pc_run _ _ _ _ Hp) |].
  rewrite (solve_runs s moves p' Hrun).
  rewrite turn_tokens_ok;
    [reflexivity | exact (predicted_vocabulary _ _ _ _ HE Hp) | exact HN].
Qed.

Lemma scramble_loop_run (toks : list string) (s : IC.t) (p' : PC) :
  Forall (fun tok => In tok possible_moves) toks -> 0 < Cube.N (IC.cube s) ->
  for_each toks pc_call (IC._pycuber_rep s) = (Ok tt, p') ->
  for_each toks (fun j => IC.on_pycuber (pc_call j) ;; IC.turn_token j) s
  = (Ok tt,
     IC.set_pycuber_rep p' (IC.set_cube (tokens_cube toks (IC.cube s)) s)).
Proof.
  intros Hall. revert s. induction Hall as [| tok toks Hin _ IH]; intros s HN Hpc.
  - simpl in Hpc. unfold ret in Hpc. injection Hpc as <-.
    simpl. unfold ret. rewrite set_cube_cube. now destruct s.
  - cbn [for_each] in Hpc. unfold bind in Hpc.
    destruct (pc_call tok (IC._pycuber_rep s)) as [[[] | e] p1] eqn:Hcall;
      [| discriminate].
    cbn [for_each]. unfold bind at 1. unfold bind at 1.
    unfold IC.on_pycuber at 1. rewrite Hcall.
    rewrite (turn_token_ok tok (IC.set_pycuber_rep p1 s) Hin HN).
    cbn [IC.cube IC.set_pycuber_rep].
    rewrite (IH (IC.set_cube (token_cube (IC.cube s) tok)
                             (IC.set_pycuber_rep p1 s))).
    + reflexivity.
    + cbn [IC.cube IC.set_cube]. now rewrite (proj1 (good_step_token tok)).
    + exact Hpc.
Qed.

(** X11.  Shuffle keeps the two cubes in step and renews the labels: in
    every state of the controller with a layer 0, when pycuber performs
    the tokens of the vocabulary, [_shuffle_cube] returns with the pycuber
    representation equal to the scramble applied to a fresh [pc.Cube()],
    whatever it was before, and with the scramble as move list and as
    scramble label; an earlier solution label is taken down only if a
    scramble label was up. *)
Theorem shuffle_keeps_cubes_in_step (draws : nat -> nat) (s : IC.t) :
  externals_ok E -> reachable s -> 0 < Cube.N (IC.cube s) ->
  exists (p' : PC) (s' : IC.t),
    for_each (generate_game max_moves draws) pc_call pc_Cube = (Ok tt, p') /\
    IC._shuffle_cube draws s = (Ok tt, s') /\
    IC._pycuber_rep s' = p' /\
    IC._moveList s' = generate_game max_moves draws /\
    IC.scrambleLabel s' = Some (generate_game max_moves draws) /\
    IC.solutionLabel s'
    = match IC.scrambleLabel s with
      | Some _ => None
      | None => IC.solutionLabel s
      end /\
    IC._digit_flags s' = IC._digit_flags s.
Proof.
  intros HE Hs HN.
  set (scr := generate_game max_moves draws).
  destruct (generate_game_spec max_moves draws) as [_ Hvoc]. fold scr in Hvoc.
  assert (Hpc : exists p', for_each scr pc_call pc_Cube = (Ok tt, p')).
  { clear - HE Hvoc. generalize pc_Cube as p.
    induction Hvoc as [| tok toks Hin _ IH]; intros p.
    - exists p. reflexivity.
    - destruct (pc_call_vocabulary HE tok p Hin) as [p1 H1].
      destruct (IH p1) as [p' H']. exists p'.
      cbn [for_each]. unfold bind. now rewrite H1. }
  destruct Hpc as [p' Hpc].
  destruct (reset_cube_of_reachable s Hs)
    as (sr & Hreset & Hrep & _ & Hdf & Hsc & Hsol & HNr).
  set (sa := IC.set_scrambleLabel (Some scr) (IC.set_moveList scr sr)).
  exists p', (IC.set_pycuber_rep p'
                (IC.set_cube (tokens_cube scr (IC.cube sa)) sa)).
  split; [exact Hpc |]. split.
  { unfold IC._shuffle_cube. unfold bind at 1. rewrite Hreset.
    fold scr. unfold bind at 1. unfold IC.modify at 1.
    unfold bind at 1. unfold IC._printShuffleLabel, IC.modify at 1.
    fold sa. apply scramble_loop_run; auto.
    - unfold sa. cbn [IC.cube IC.set_scrambleLabel IC.set_moveList]. lia.
    - unfold sa.
      cbn [IC._pycuber_rep IC.set_scrambleLabel IC.set_moveList].
      now rewrite Hrep. }
  unfold sa.
  cbn [IC._pycuber_rep IC._moveList IC._digit_flags IC.scrambleLabel
       IC.solutionLabel IC.set_solutionLabel IC.set_scrambleLabel
       IC.set_pycuber_rep IC.set_cube IC.set_moveList].
  auto.
Qed.

End ButtonProperties.

(** ** Face keys *)

Section FaceKeys.

Context {E : External}.

(** The branch of [_key_press] for a face key. *)
Lemma key_press_face_branch (key : string) (s : IC.t) :
  face_key key ->
  IC._key_press key s
  = ((if existsb (fun b => b) (firstn (Cube.N (IC.cube s)) (IC._digit_flags s))
      then
        if List.length (firstn (Cube.N (IC.cube s)) (IC._digit_flags s))
           <? Cube.N (IC.cube s)
        then raise IndexError
        else
          for_each
            (filter (fun d => nth d (firstn (Cube.N (IC.cube s))
                                            (IC._digit_flags s)) false)
                    (seq 0 (Cube.N (IC.cube s))))
            (fun d =>
               IC.rotate_face (upper key) (inject_Z (key_direction key))
                              (Z.of_nat d) 5 ;;
               IC.on_pycuber (pc_call (key_token key)))
      else
        IC.rotate_face (upper key) (inject_Z (key_direction key)) 0 5 ;;
        IC.on_pycuber (pc_call (key_token key))) ;;
     s' <- get ;;
     IC.modify (IC.set_moveList (IC._moveList s' ++ [key_token key])%list) ;;
     IC._printShuffleLabel (IC._moveList s' ++ [key_token key])%list) s.
Proof.
  intros [Hd Hu]. unfold IC._key_press. rewrite Hd, Hu.
  destruct (String.eqb_spec key "right") as [-> | _]; [discriminate Hu |].
  destruct (String.eqb_spec key "shift+right") as [-> | _]; [discriminate Hu |].
  destruct (String.eqb_spec key "shift+left") as [-> | _]; [discriminate Hu |].
  destruct (String.eqb_spec key "left") as [-> | _]; [discriminate Hu |].
  destruct (String.eqb_spec key "up") as [-> | _]; [discriminate Hu |].
  destruct (String.eqb_spec key "down") as [-> | _]; [discriminate Hu |].
  cbn [orb]. reflexivity.
Qed.

(** X12.  A face key adds exactly one entry to the controller's move list,
    the notation of the key, however many layers it turns; the scramble
    label then shows the whole list.  If the handler raises on the way
    (the cube or pycuber rejects the request), the move list and the label
    are left as they were. *)
Theorem face_key_appends_one_move (key : string) (s : IC.t) :
  face_key key ->
  (fst (IC._key_press key s) = Ok tt /\
   IC._moveList (snd (IC._key_press key s))
   = (IC._moveList s ++ [key_token key])%list /\
   IC.scrambleLabel (snd (IC._key_press key s))
   = Some (IC._moveList s ++ [key_token key])%list) \/
  ((exists e, fst (IC._key_press key s) = Raise e) /\
   IC._moveList (snd (IC._key_press key s)) = IC._moveList s /\
   IC.scrambleLabel (snd (IC._key_press key s)) = IC.scrambleLabel s).
Proof.
  intros Hk.
  set (P := fun x : IC.t => IC._moveList x = IC._moveList s /\
                            IC.scrambleLabel x = IC.scrambleLabel s).
  assert (Hcases :
            (exists s1, P s1 /\
               IC._key_press key s
               = (Ok tt,
                  IC.set_scrambleLabel
                    (Some (IC._moveList s1 ++ [key_token key])%list)
                    (IC.set_moveList (IC._moveList s1 ++ [key_token key])%list
                                     s1))) \/
            (exists e s1, P s1 /\ IC._key_press key s = (Raise e, s1))).
  { rewrite (key_press_face_branch key s Hk).
    assert (HPc : forall x c, P x -> P (IC.set_cube c x))
      by (intros x c H; exact H).
    assert (HPp : forall x p, P x -> P (IC.set_pycuber_rep p x))
      by (intros x p H; exact H).
    assert (Hbody : forall l : Z,
               preserves P
                 (IC.rotate_face (upper key) (inject_Z (key_direction key)) l 5 ;;
                  IC.on_pycuber (pc_call (key_token key)))).
    { intros l. apply preserves_bind; [now apply keeps_rotate_face |].
      intros _. now apply keeps_on_pycuber. }
    match goal with
    | |- context [bind ?A0 ?K0 s] => set (A := A0); set (K := K0)
    end.
    assert (HA : preserves P A).
    { unfold A.
      destruct (existsb (fun b => b)
                  (firstn (Cube.N (IC.cube s)) (IC._digit_flags s))).
      - destruct (List.length (firstn (Cube.N (IC.cube s)) (IC._digit_flags s))
                  <? Cube.N (IC.cube s)).
        + apply preserves_raise.
        + apply preserves_for_each. intros d. apply Hbody.
      - apply (Hbody 0%Z). }
    assert (Hb : bind A K s
                 = match A s with
                   | (Ok a, s') => K a s'
                   | (Raise e, s') => (Raise e, s')
                   end) by reflexivity.
    rewrite Hb. clear Hb.
    destruct (A s) as [[[] | e] s1] eqn:Hrun.
    - left. exists s1. split; [| reflexivity].
      exact (HA s _ s1 Hrun (conj eq_refl eq_refl)).
    - right. exists e, s1. split; [| reflexivity].
      exact (HA s _ s1 Hrun (conj eq_refl eq_refl)). }
  destruct Hcases as [(s1 & [Hml Hsl] & ->) | (e & s1 & [Hml Hsl] & ->)].
  - left. cbn [fst snd IC._moveList IC.scrambleLabel IC.set_moveList
               IC.set_scrambleLabel]. rewrite Hml. repeat split.
  - right. cbn [fst snd]. split; [now exists e | auto].
Qed.

Lemma layer_loop (f tok : string) (v : vec) (t : Z) (ds : list nat) (s : IC.t) :
  Cube.lookup f Cube.facesdict = Some v ->
  (forall p, exists p', pc_call tok p = (Ok tt, p')) ->
  Forall (fun d => d < Cube.N (IC.cube s)) ds ->
  exists p' : PC,
    repeat_n (List.length ds) (pc_call tok) (IC._pycuber_rep s) = (Ok tt, p') /\
    for_each ds
      (fun d => IC.rotate_face f (inject_Z t) (Z.of_nat d) 5 ;;
                IC.on_pycuber (pc_call tok)) s
    = (Ok tt,
       IC.set_pycuber_rep p'
         (IC.set_cube
            (fold_left (fun c d => rotated f v (inject_Z t) (Z.of_nat d) 5 c)
                       ds (IC.cube s)) s)).
Proof.
  intros Hf Hpc Hall. revert s Hall.
  induction ds as [| d ds IH]; intros s Hall.
  - exists (IC._pycuber_rep s). split; [reflexivity |].
    simpl. unfold ret. rewrite set_cube_cube. now destruct s.
  - inversion Hall as [| ? ? Hd Hall']; subst.
    destruct (Hpc (IC._pycuber_rep s)) as [p1 Hp1].
    set (s1 := IC.set_pycuber_rep p1
                 (IC.set_cube (rotated f v (inject_Z t) (Z.of_nat d) 5 (IC.cube s))
                              s)).
    destruct (IH s1) as (p' & Hrep & Hrun).
    { unfold s1. cbn [IC.cube IC.set_cube IC.set_pycuber_rep].
      now rewrite rotated_N. }
    exists p'. split.
    + cbn [List.length repeat_n]. unfold bind. rewrite Hp1. exact Hrep.
    + cbn [for_each]. unfold bind at 1. unfold bind at 1.
      rewrite (rotate_face_ok f v (inject_Z t) (Z.of_nat d) 5 s Hf)
        by (unfold valid_layer; lia).
      unfold IC.on_pycuber at 1.
      cbn [IC._pycuber_rep IC.set_cube]. rewrite Hp1.
      fold s1. rewrite Hrun. reflexivity.
Qed.

(** X13.  With digits held, a face key turns the held layers below [N], in
    increasing order (layer 0 when none is held), each by one quarter turn
    in the key's direction; and it passes the key's notation to the
    pycuber representation once for every layer turned, so that holding
    [k] digits makes pycuber turn its face [k] times while the move list
    gets one entry. *)
Theorem face_key_turns_held_layers (key : string) (v : vec) (s : IC.t) :
  face_key key ->
  Cube.lookup (upper key) Cube.facesdict = Some v ->
  0 < Cube.N (IC.cube s) ->
  Cube.N (IC.cube s) <= List.length (IC._digit_flags s) ->
  (forall p, exists p', pc_call (key_token key) p = (Ok tt, p')) ->
  exists (p' : PC) (s' : IC.t),
    repeat_n (List.length (key_layers (Cube.N (IC.cube s)) (IC._digit_flags s)))
             (pc_call (key_token key)) (IC._pycuber_rep s) = (Ok tt, p') /\
    IC._key_press key s = (Ok tt, s') /\
    IC._pycuber_rep s' = p' /\
    IC.cube s'
    = fold_left
        (fun c d => rotated (upper key) v (inject_Z (key_direction key))
                            (Z.of_nat d) 5 c)
        (key_layers (Cube.N (IC.cube s)) (IC._digit_flags s)) (IC.cube s) /\
    IC._moveList s' = (IC._moveList s ++ [key_token key])%list.
Proof.
  intros Hk Hf HN Hlen Hpc.
  set (n := Cube.N (IC.cube s)) in *.
  set (flags := IC._digit_flags s) in *.
  assert (Hlayers : Forall (fun d => d < n) (key_layers n flags)).
  { unfold key_layers. destruct (existsb (fun b => b) (firstn n flags)).
    - apply Forall_forall. intros d Hd. apply filter_In in Hd as [Hd _].
      apply in_seq in Hd. lia.
    - repeat constructor. exact HN. }
  destruct (layer_loop (upper key) (key_token key) v (key_direction key)
                       (key_layers n flags) s Hf Hpc Hlayers)
    as (p' & Hrep & Hrun).
  exists p'. eexists. split; [exact Hrep |].
  rewrite (key_press_face_branch key s Hk). fold n flags.
  match goal with
  | |- context [bind ?A0 ?K0 s] => set (A := A0); set (K := K0)
  end.
  assert (HA : A s = for_each (key_layers n flags)
                       (fun d => IC.rotate_face (upper key)
                                   (inject_Z (key_direction key)) (Z.of_nat d) 5 ;;
                                 IC.on_pycuber (pc_call (key_token key))) s).
  { unfold A, key_layers.
    destruct (existsb (fun b => b) (firstn n flags)).
    - rewrite length_firstn.
      destruct (Nat.ltb_spec (Nat.min n (List.length flags)) n); [lia |].
      reflexivity.
    - cbn [for_each]. now rewrite bind_ret_tt. }
  assert (Hb : bind A K s
               = match A s with
                 | (Ok a, s') => K a s'
                 | (Raise e, s') => (Raise e, s')
                 end) by reflexivity.
  rewrite Hb, HA, Hrun. unfold K, bind, get, IC.modify, IC._printShuffleLabel.
  split; [reflexivity |].
  cbn [IC._pycuber_rep IC.cube IC._moveList IC.set_moveList
       IC.set_scrambleLabel IC.set_pycuber_rep IC.set_cube].
  repeat split.
Qed.

End FaceKeys.

(** ** The view: orientation, limits and the mouse *)

Section ViewProperties.

Context {E : External} {P : Projection}.

Lemma set_nth_undo {A : Type} (k : nat) (c d : A) (l : list A) :
  nth k l d = d -> set_nth k d (set_nth k c l) = l.
Proof.
  revert k. induction l as [| x l IH]; intros [| k] H; cbn in *;
    try reflexivity.
  - now subst.
  - now rewrite IH.
Qed.

Lemma arrow_key_no_digit (key : string) : arrow_key key -> isdigit key = false.
Proof.
  unfold arrow_key. cbn [In].
  intros [H | [H | [H | [H | [H | [H | []]]]]]]; subst; reflexivity.
Qed.


(** On any other key the handler is the one of the core. *)
Lemma key_press_other (key : string) (s : IV.t) :
  ~ arrow_key key ->
  IV._key_press key s = IV.on_core (IC._key_press key) s.
Proof.
  intros Hn. unfold IV._key_press, IC._key_press.
  destruct (isdigit key); [reflexivity |].
  assert (Hne : forall k, In k ["right"; "shift+right"; "left"; "shift+left";
                                "up"; "down"]%string ->
                          String.eqb key k = false).
  { intros k Hk. apply String.eqb_neq. intros ->. now apply Hn. }
  rewrite !Hne by (cbn [In]; tauto). cbn [orb].
  destruct (str_in (upper key) "LRUDBF"); [reflexivity |].
  unfold IV.on_core, ret. cbn. now destruct s.
Qed.

Lemma on_core_view (m : M IC.t unit) (s : IV.t) :
  view_of (snd (IV.on_core m s)) = view_of s
  /\ IV._shift (snd (IV.on_core m s)) = IV._shift s
  /\ IV._start_rot (snd (IV.on_core m s)) = IV._start_rot s
  /\ IV._start_xlim (snd (IV.on_core m s)) = IV._start_xlim s
  /\ IV._start_ylim (snd (IV.on_core m s)) = IV._start_ylim s.
Proof.
  unfold IV.on_core. destruct (m (IV.core s)) as [r c]. cbn.
  repeat split.
Qed.

Lemma handle_start_kept (xl yl : Q * Q) (ev : IV.event) (s : IV.t) :
  start_kept xl yl s -> start_kept xl yl (snd (IV.handle ev s)).
Proof.
  unfold start_kept. intros (Hs & Hr & Hx & Hy).
  destruct ev as [key | key | x y b | b | x y | | | draws |];
    cbn [IV.handle snd].
  - unfold IV._key_press.
    repeat match goal with
           | |- context [if ?b then _ else _] => destruct b
           end;
      try (destruct (on_core_view (IC._key_press key) s)
             as (_ & -> & -> & -> & ->));
      cbn; tauto.
  - unfold IV._key_release.
    repeat match goal with
           | |- context [if ?b then _ else _] => destruct b
           end; cbn; tauto.
  - unfold IV._mouse_press.
    repeat match goal with
           | |- context [if ?b then _ else _] => destruct b
           end; cbn; tauto.
  - unfold IV._mouse_release.
    repeat match goal with
           | |- context [if ?b then _ else _] => destruct b
           end; cbn; tauto.
  - unfold IV._mouse_motion.
    destruct (IV._button1 s), (IV._button2 s), (IV._event_xy s) as [[x0 y0] |];
      cbn; rewrite ?Hs; cbn; tauto.
  - cbn; tauto.
  - destruct (on_core_view IC._reset_cube s) as (_ & -> & -> & -> & ->). tauto.
  - destruct (on_core_view (IC._shuffle_cube draws) s)
      as (_ & -> & -> & -> & ->). tauto.
  - destruct (on_core_view IC._solve_cube_NN s) as (_ & -> & -> & -> & ->).
    tauto.
Qed.

Lemma run_snoc (evs : list IV.event) (ev : IV.event) (s : IV.t) :
  IV.run (evs ++ [ev]) s = snd (IV.handle ev (IV.run evs s)).
Proof. unfold IV.run. now rewrite fold_left_app. Qed.

Lemma run_start_kept (n : nat) (xl yl : Q * Q) (evs : list IV.event) :
  start_kept xl yl (IV.run evs (IV.init n xl yl)).
Proof.
  induction evs as [| ev evs IH] using rev_ind.
  - repeat split.
  - rewrite run_snoc. now apply handle_start_kept.
Qed.


Lemma handle_cube_event (ev : IV.event) (s : IV.t) :
  cube_event ev -> view_of (snd (IV.handle ev s)) = view_of s.
Proof.
  destruct ev as [key | key | x y b | b | x y | | | draws |];
    cbn [cube_event IV.handle snd]; intros Hev; try contradiction.
  - rewrite (key_press_other key s Hev). apply on_core_view.
  - unfold IV._key_release.
    repeat match goal with
           | |- context [if ?b then _ else _] => destruct b
           end; reflexivity.
  - apply on_core_view.
  - apply on_core_view.
  - apply on_core_view.
Qed.


(** X17.  Whatever series of key presses other than the arrows, key
    releases and clicks on Reset Cube, Shuffle and Solve is handled, from
    any state and whether or not a handler raises, the orientation, the
    limits of the axes, the two button flags and the stored mouse position
    are the ones before the series. *)
Theorem cube_events_leave_view (evs : list IV.event) (s : IV.t) :
  Forall cube_event evs -> view_of (IV.run evs s) = view_of s.
Proof.
  induction evs as [| ev evs IH] using rev_ind; intros H.
  - reflexivity.
  - apply Forall_app in H as [Hevs Hev].
    rewrite run_snoc, handle_cube_event by now inversion Hev.
    now apply IH.
Qed.

(** X18.  After any series of events on a fresh controller, Reset View puts
    the orientation back to the start rotation and the limits of the axes
    back to the ones the constructor has set, and changes nothing else:
    neither the core nor the button flags nor the stored mouse position. *)
Theorem reset_view_restores_start
    (n : nat) (xl yl : Q * Q) (evs : list IV.event) :
  let s := IV.run evs (IV.init n xl yl) in
  IV._current_rot (IV._reset_view s) = IV._current_rot (IV.init n xl yl)
  /\ IV.xlim (IV._reset_view s) = IV.xlim (IV.init n xl yl)
  /\ IV.ylim (IV._reset_view s) = IV.ylim (IV.init n xl yl)
  /\ IV._reset_view s
     = IV.set_view (IV._current_rot (IV._reset_view s))
                   (IV.xlim (IV._reset_view s))
                   (IV.ylim (IV._reset_view s)) s.
Proof.
  intros s. destruct (run_start_kept n xl yl evs) as (_ & Hr & Hx & Hy).
  fold s in Hr, Hx, Hy. unfold IV._reset_view.
  cbn [IV._current_rot IV.xlim IV.ylim IV.set_view IV.init].
  rewrite Hr, Hx, Hy. repeat split.
Qed.

(** X19.  [_shift] is false after any series of events on a fresh
    controller, so a drag with button 1 held never turns about the
    alternative axis: when a position is stored, a motion to [(x, y)]
    composes the orientation with the rotation about [_ax_UD] by
    [_step_UD * dy] times the rotation about [_ax_LR] by [_step_LR * dx],
    stores [(x, y)], and leaves the core alone. *)
Theorem drag_never_uses_alternative_axis
    (n : nat) (xl yl : Q * Q) (evs : list IV.event) (x y x0 y0 : Q) :
  let s := IV.run evs (IV.init n xl yl) in
  IV._button1 s = true ->
  IV._event_xy s = Some (x0, y0) ->
  IV._shift s = false
  /\ fst (IV._mouse_motion x y s) = Done
  /\ IV._current_rot (snd (IV._mouse_motion x y s))
     = qmul (IV._current_rot s)
            (qmul (from_v_theta IV._ax_UD (IV._step_UD * (y - y0)))
                  (from_v_theta IV._ax_LR (IV._step_LR * (x - x0))))
  /\ IV._event_xy (snd (IV._mouse_motion x y s)) = Some (x, y)
  /\ IV.core (snd (IV._mouse_motion x y s)) = IV.core s.
Proof.
  intros s Hb Hxy. destruct (run_start_kept n xl yl evs) as (Hs & _).
  fold s in Hs. split; [exact Hs |].
  unfold IV._mouse_motion. rewrite Hb, Hxy. cbn [orb].
  cbn [IV.set_mouse IV._button1 IV._button2 IV._shift].
  rewrite Hs. destruct (IV._button2 s); cbn; repeat split.
Qed.

(** X20.  Releasing a mouse button forgets the stored position even when
    the other button is still held: if after a release one of the two
    button flags is set, every motion raises [TypeError] (the subscript of
    [None]) and leaves the state as the release has left it. *)
Theorem motion_after_release_raises (button : Z) (x y : Q) (s : IV.t) :
  IV._button1 (IV._mouse_release button s)
  || IV._button2 (IV._mouse_release button s) = true ->
  IV._mouse_motion x y (IV._mouse_release button s)
  = (Failed TypeError, IV._mouse_release button s).
Proof.
  intros H. unfold IV._mouse_motion. rewrite H.
  assert (Hxy : IV._event_xy (IV._mouse_release button s) = None).
  { unfold IV._mouse_release.
    destruct (button =? 1)%Z, (button =? 3)%Z; reflexivity. }
  now rewrite Hxy.
Qed.

(** X21.  Pressing a digit key whose flag is not set and releasing it
    leaves the whole state as it was, also for a digit string that indexes
    past the flags, where both handlers raise [IndexError]. *)
Theorem digit_release_undoes_press (key : string) (s : IV.t) :
  isdigit key = true ->
  nth (int_of key) (IC._digit_flags (IV.core s)) false = false ->
  IV.run [IV.KeyPress key; IV.KeyRelease key] s = s.
Proof.
  intros Hd Hflag. unfold IV.run. cbn [fold_left IV.handle].
  assert (Hne : String.eqb key "shift" = false).
  { apply String.eqb_neq. intros ->. discriminate Hd. }
  unfold IV._key_press, IV._key_release, IC._key_press. rewrite Hd, Hne.
  unfold IV.on_core, bind, get.
  destruct (Nat.ltb_spec (int_of key) (List.length (IC._digit_flags (IV.core s))))
    as [Hlt | Hge].
  - unfold IC.modify. cbn [snd IV.core IV.set_core IC._digit_flags
                           IC.set_digit_flags].
    rewrite set_nth_length.
    destruct (Nat.ltb_spec (int_of key)
                (List.length (IC._digit_flags (IV.core s)))); [| lia].
    cbn [snd]. rewrite set_nth_undo by exact Hflag.
    destruct s as [c ? ? ? ? ? ? ? ? ? ?]. destruct c. reflexivity.
  - unfold raise. cbn [snd IV.core IV.set_core].
    destruct (Nat.ltb_spec (int_of key)
                (List.length (IC._digit_flags (IV.core s)))); [lia |].
    cbn [snd]. destruct s. reflexivity.
Qed.

End ViewProperties.

(** ** The scrambles that [generate_game] can return *)

(** X14.  The scrambles of [generate_game(n)] are exactly the lists of [n]
    tokens of [possible_moves]: every result is such a list, and every
    such list, the last token [L2] included, is the result for some draws
    of the generator. *)
Theorem generate_game_range (n : nat) (toks : list string) :
  (exists draws, generate_game n draws = toks)
  <-> List.length toks = n /\ Forall (fun tok => In tok possible_moves) toks.
Proof.
  split.
  - intros [draws <-]. apply generate_game_spec.
  - intros [Hlen Hall]. exists (draws_of toks). unfold generate_game.
    apply (nth_ext _ _ ""%string ""%string).
    + now rewrite length_map, length_seq.
    + intros j Hj. rewrite length_map, length_seq in Hj.
      rewrite (nth_indep _ ""%string
                 (nth (randint 0 (List.length possible_moves - 1)
                               (draws_of toks 0)) possible_moves ""%string))
        by now rewrite length_map, length_seq.
      rewrite (map_nth (fun j => nth (randint 0 (List.length possible_moves - 1)
                                              (draws_of toks j))
                                     possible_moves ""%string)).
      rewrite seq_nth by exact Hj. cbn [Nat.add].
      assert (Hin : In (nth j toks ""%string) possible_moves).
      { rewrite Forall_forall in Hall. apply Hall, nth_In. lia. }
      destruct (list_index_In _ _ Hin) as (c & Hc & Hlt & Hnth).
      unfold draws_of. rewrite Hc. unfold randint.
      change (List.length possible_moves) with 18 in *.
      change (17 - 0 + 1) with 18. cbn [Nat.add].
      rewrite Nat.mod_small by exact Hlt. exact Hnth.
Qed.

(** ** What pycuber is asked on a face key *)

Section InverseKeys.

Context {E : External}.

(** The loop over the held layers asks pycuber the same token once per
    layer turned, and stops where a turn or pycuber raises. *)
Lemma pycuber_asked_in_loop (f tok : string) (t : Q) (ds : list nat)
      (s s' : IC.t) (r : outcome unit) :
  for_each ds (fun d => IC.rotate_face f t (Z.of_nat d) 5 ;;
                        IC.on_pycuber (pc_call tok)) s = (r, s') ->
  exists k,
    k <= List.length ds /\
    IC._pycuber_rep s' = snd (repeat_n k (pc_call tok) (IC._pycuber_rep s)) /\
    (r = Ok tt -> k = List.length ds).
Proof.
  revert s. induction ds as [| d ds IH]; intros s H.
  - inversion H; subst. exists 0.
    split; [apply le_n |]. split; [reflexivity | intros _; reflexivity].
  - cbn [for_each] in H. unfold bind at 1 2 in H.
    destruct (IC.rotate_face f t (Z.of_nat d) 5 s) as [[[] | e] s1] eqn:Hrot.
    + assert (Hp : IC._pycuber_rep s1 = IC._pycuber_rep s).
      { refine (keeps_rotate_face
                  (fun x => IC._pycuber_rep x = IC._pycuber_rep s)
                  f t (Z.of_nat d) 5 _ s _ s1 Hrot eq_refl).
        intros x c Hx. exact Hx. }
      unfold IC.on_pycuber at 1 in H. rewrite Hp in H.
      destruct (pc_call tok (IC._pycuber_rep s)) as [[[] | e] p2] eqn:Hcall.
      * apply IH in H as (k & Hk & Hrep & Hok).
        exists (S k). cbn [List.length repeat_n]. unfold bind at 1.
        rewrite Hcall. split; [lia |]. split; [exact Hrep |].
        intros Hr. now rewrite Hok.
      * inversion H; subst. exists 1. cbn [List.length repeat_n].
        unfold bind at 1. rewrite Hcall. split; [lia |].
        split; [reflexivity | discriminate].
    + inversion H; subst. exists 0. split; [lia |]. split.
      * refine (keeps_rotate_face
                  (fun x => IC._pycuber_rep x = IC._pycuber_rep s)
                  f t (Z.of_nat d) 5 _ s _ s' Hrot eq_refl).
        intros x c Hx. exact Hx.
      * discriminate.
Qed.

(** X15.  On an upper-case face key the name of the face reaches neither
    the move list nor pycuber: the token of every such key is the
    apostrophe alone, whatever the face, and it is that token that the
    pycuber representation is asked to perform, once per layer turned
    (all the selected layers when the handler returns). *)
Theorem upper_case_face_key_sends_apostrophe (key : string) (s : IC.t) :
  face_key key -> str_in key "LRUDBF" = true ->
  key_token key = "'"%string /\
  exists k,
    k <= List.length (key_layers (Cube.N (IC.cube s)) (IC._digit_flags s)) /\
    IC._pycuber_rep (snd (IC._key_press key s))
    = snd (repeat_n k (pc_call "'") (IC._pycuber_rep s)) /\
    (fst (IC._key_press key s) = Ok tt ->
     k = List.length (key_layers (Cube.N (IC.cube s)) (IC._digit_flags s))).
Proof.
  intros Hk Hup.
  assert (Htok : key_token key = "'"%string).
  { unfold key_token, key_direction. now rewrite Hup. }
  split; [exact Htok |].
  rewrite (key_press_face_branch key s Hk). rewrite Htok.
  set (n := Cube.N (IC.cube s)). set (flags := IC._digit_flags s).
  match goal with
  | |- context [bind ?A0 ?K0 s] => set (A := A0); set (K := K0)
  end.
  assert (HA : exists k,
             k <= List.length (key_layers n flags) /\
             IC._pycuber_rep (snd (A s))
             = snd (repeat_n k (pc_call "'") (IC._pycuber_rep s)) /\
             (fst (A s) = Ok tt -> k = List.length (key_layers n flags))).
  { unfold A, key_layers.
    destruct (existsb (fun b => b) (firstn n flags)).
    - destruct (List.length (firstn n flags) <? n).
      + exists 0. split; [lia |]. split; [reflexivity | discriminate].
      + destruct (for_each _ _ s) as [r s1] eqn:Hrun.
        apply pycuber_asked_in_loop in Hrun as (k & Hle & Hrep & Hok).
        exists k. cbn [fst snd]. auto.
    - destruct ((IC.rotate_face (upper key) (inject_Z (key_direction key)) 0 5 ;;
                 IC.on_pycuber (pc_call "'")) s) as [r s1] eqn:Hrun.
      rewrite <- bind_ret_tt in Hrun.
      apply (pycuber_asked_in_loop (upper key) "'"
               (inject_Z (key_direction key)) [0] s s1 r) in Hrun
        as (k & Hle & Hrep & Hok).
      exists k. cbn [fst snd]. auto. }
  destruct HA as (k & Hle & Hrep & Hok). exists k.
  assert (Hb : bind A K s
               = match A s with
                 | (Ok a, s') => K a s'
                 | (Raise e, s') => (Raise e, s')
                 end) by reflexivity.
  rewrite Hb. clear Hb.
  destruct (A s) as [[[] | e] s1]; cbn [fst snd] in *.
  - split; [exact Hle |]. split; [exact Hrep |]. intros _. now apply Hok.
  - split; [exact Hle |]. split; [exact Hrep |]. discriminate.
Qed.

End InverseKeys.

(** ** The further properties on the stand-ins *)

Lemma cube2np_fixed_shape_witness :
  exists t : list (list (list nat)),
    IC.cube2np (@pc_Cube Demo.external) = Ok t /\
    List.length t = 6 /\
    Forall (fun face : list (list nat) =>
              List.length face = 3 /\
              Forall (fun row : list nat =>
                        List.length row = 3 /\ Forall (fun c => c < 6) row) face)
           t.
Proof.
  eexists. split; [vm_compute; reflexivity |].
  apply (@cube2np_fixed_shape Demo.external (@pc_Cube Demo.external)).
  vm_compute. reflexivity.
Defined.

Lemma cube2np_raises_witness :
  IC.cube2np (@pc_Cube demo_off_palette) = Raise ValueError /\
  (ValueError = IndexError \/
   (ValueError = ValueError /\
    exists f row x,
      In f faces /\ In row (@pc_get_face demo_off_palette pc_Cube f) /\
      In x row /\ ~ In x colors)).
Proof.
  split; [vm_compute; reflexivity |].
  apply (@cube2np_raises demo_off_palette (@pc_Cube demo_off_palette)).
  vm_compute. reflexivity.
Defined.

Lemma cube2np_injective_witness :
  externals_ok Demo.external /\
  IC.cube2np (@pc_Cube Demo.external)
  = IC.cube2np (snd (@pc_call Demo.external "R" pc_Cube)) /\
  Forall (fun f => @pc_get_face Demo.external pc_Cube f
                   = pc_get_face (snd (@pc_call Demo.external "R" pc_Cube)) f)
         faces.
Proof.
  split; [exact demo_externals_ok |].
  split; [vm_compute; reflexivity |].
  apply (@cube2np_injective Demo.external); [exact demo_externals_ok |].
  vm_compute. reflexivity.
Defined.

Lemma convert_returns_first_best_witness :
  IC._convertPycubeToMove (@pc_Cube Demo.external) = Ok "R"%string /\
  In "R"%string possible_moves /\
  exists (t : list (list (list nat))) (i : nat),
    IC.cube2np (@pc_Cube Demo.external) = Ok t /\
    i < 18 /\ nth_error possible_moves i = Some "R"%string /\
    (forall k, k < List.length (@model_predict Demo.external (List.concat t)) ->
       (nth k (@model_predict Demo.external (List.concat t)) 0
        <= nth i (@model_predict Demo.external (List.concat t)) 0)%Q) /\
    (forall k, k < i ->
       (nth k (@model_predict Demo.external (List.concat t)) 0
        < nth i (@model_predict Demo.external (List.concat t)) 0)%Q).
Proof.
  split; [vm_compute; reflexivity |].
  apply (@convert_returns_first_best Demo.external (@pc_Cube Demo.external)).
  vm_compute. reflexivity.
Defined.

Lemma convert_raises_on_bad_scores_witness :
  exists t : list (list (list nat)),
    IC.cube2np (@pc_Cube demo_nineteen_scores) = Ok t /\
    argmax (@model_predict demo_nineteen_scores (List.concat t)) = Ok 18 /\
    IC._convertPycubeToMove (@pc_Cube demo_nineteen_scores) = Raise IndexError.
Proof.
  eexists. split; [vm_compute; reflexivity |].
  split; [vm_compute; reflexivity |].
  refine (proj2 (@convert_raises_on_bad_scores demo_nineteen_scores
                   (@pc_Cube demo_nineteen_scores) _ _) 18 _ _).
  - vm_compute. reflexivity.
  - vm_compute. reflexivity.
  - apply le_n.
Defined.

Lemma failed_prediction_leaves_cube_witness :
  fst (IC.predict_moves 10 [] (@IC.init demo_no_score 3)) = Raise ValueError /\
  fst (IC._solve_cube_NN (@IC.init demo_no_score 3)) = Raise ValueError /\
  snd (IC._solve_cube_NN (@IC.init demo_no_score 3))
  = snd (IC.predict_moves 10 [] (@IC.init demo_no_score 3)) /\
  snd (IC._solve_cube_NN (@IC.init demo_no_score 3))
  = IC.set_pycuber_rep
      (IC._pycuber_rep (snd (IC._solve_cube_NN (@IC.init demo_no_score 3))))
      (@IC.init demo_no_score 3).
Proof.
  split; [vm_compute; reflexivity |].
  apply (@failed_prediction_leaves_cube demo_no_score).
  vm_compute. reflexivity.
Defined.

Lemma demo_after_solve_reachable : reachable Demo.after_solve.
Proof.
  apply (reachable_solve_cube_NN (@IC.init Demo.external 3) _
           (fst (IC._solve_cube_NN (@IC.init Demo.external 3)))).
  - apply reachable_init.
  - unfold Demo.after_solve. now destruct (IC._solve_cube_NN (IC.init 3)).
Qed.

Lemma demo_after_key_r_reachable : reachable Demo.after_key_r.
Proof.
  apply (reachable_key_press "r" (@IC.init Demo.external 3) _
           (fst (IC._key_press "r" (@IC.init Demo.external 3)))).
  - apply reachable_init.
  - unfold Demo.after_key_r. now destruct (IC._key_press "r" (IC.init 3)).
Qed.

Lemma reset_cube_keeps_move_list_and_label_witness :
  reachable Demo.after_solve /\
  exists s' : @IC.t Demo.external,
    IC._reset_cube Demo.after_solve = (Ok tt, s') /\
    IC._pycuber_rep s' = pc_Cube /\
    IC._moveList s' = IC._moveList Demo.after_solve /\
    IC._digit_flags s' = IC._digit_flags Demo.after_solve /\
    IC.scrambleLabel s' = None /\
    IC.solutionLabel s'
    = match IC.scrambleLabel Demo.after_solve with
      | Some _ => None
      | None => IC.solutionLabel Demo.after_solve
      end.
Proof.
  split; [exact demo_after_solve_reachable |].
  exact (reset_cube_keeps_move_list_and_label Demo.after_solve
           demo_after_solve_reachable).
Defined.

Lemma solve_keeps_cubes_in_step_witness :
  externals_ok Demo.external /\
  0 < Cube.N (IC.cube (@IC.init Demo.external 3)) /\
  exists (moves : list string) (p' : @PC Demo.external),
    for_each moves pc_call (IC._pycuber_rep (@IC.init Demo.external 3))
    = (Ok tt, p') /\
    IC._solve_cube_NN (@IC.init Demo.external 3)
    = (Ok tt,
       IC.set_cube (tokens_cube moves (IC.cube (@IC.init Demo.external 3)))
         (IC.set_solutionLabel (Some moves)
            (IC.set_pycuber_rep p' (@IC.init Demo.external 3)))).
Proof.
  split; [exact demo_externals_ok |].
  split; [apply Nat.lt_0_succ |].
  apply (solve_keeps_cubes_in_step (@IC.init Demo.external 3));
    [exact demo_externals_ok | apply Nat.lt_0_succ].
Defined.

Lemma shuffle_keeps_cubes_in_step_witness :
  externals_ok Demo.external /\
  reachable Demo.after_key_r /\
  0 < Cube.N (IC.cube Demo.after_key_r) /\
  exists (p' : @PC Demo.external) (s' : @IC.t Demo.external),
    for_each (generate_game max_moves (fun j => 7 * j + 2)) pc_call pc_Cube
    = (Ok tt, p') /\
    IC._shuffle_cube (fun j => 7 * j + 2) Demo.after_key_r = (Ok tt, s') /\
    IC._pycuber_rep s' = p' /\
    IC._moveList s' = generate_game max_moves (fun j => 7 * j + 2) /\
    IC.scrambleLabel s' = Some (generate_game max_moves (fun j => 7 * j + 2)) /\
    IC.solutionLabel s'
    = match IC.scrambleLabel Demo.after_key_r with
      | Some _ => None
      | None => IC.solutionLabel Demo.after_key_r
      end /\
    IC._digit_flags s' = IC._digit_flags Demo.after_key_r.
Proof.
  assert (HN : 0 < Cube.N (IC.cube Demo.after_key_r))
    by (vm_compute; apply Nat.lt_0_succ).
  split; [exact demo_externals_ok |].
  split; [exact demo_after_key_r_reachable |].
  split; [exact HN |].
  exact (shuffle_keeps_cubes_in_step (fun j => 7 * j + 2) Demo.after_key_r
           demo_externals_ok demo_after_key_r_reachable HN).
Defined.

Lemma face_key_appends_one_move_witness :
  face_key "r" /\
  ((fst (IC._key_press "r" Demo.holding_1) = Ok tt /\
    IC._moveList (snd (IC._key_press "r" Demo.holding_1))
    = (IC._moveList Demo.holding_1 ++ [key_token "r"])%list /\
    IC.scrambleLabel (snd (IC._key_press "r" Demo.holding_1))
    = Some (IC._moveList Demo.holding_1 ++ [key_token "r"])%list) \/
   ((exists e, fst (IC._key_press "r" Demo.holding_1) = Raise e) /\
    IC._moveList (snd (IC._key_press "r" Demo.holding_1))
    = IC._moveList Demo.holding_1 /\
    IC.scrambleLabel (snd (IC._key_press "r" Demo.holding_1))
    = IC.scrambleLabel Demo.holding_1)).
Proof.
  assert (Hk : face_key "r") by (split; reflexivity).
  split; [exact Hk |].
  exact (face_key_appends_one_move "r" Demo.holding_1 Hk).
Defined.

Lemma demo_pc_call_R (p : @PC Demo.external) :
  exists p', @pc_call Demo.external (key_token "r") p = (Ok tt, p').
Proof. eexists. reflexivity. Qed.

Lemma face_key_turns_held_layers_witness :
  face_key "r" /\
  Cube.lookup (upper "r") Cube.facesdict = Some (1, 0, 0)%Z /\
  key_layers (Cube.N (IC.cube Demo.holding_1)) (IC._digit_flags Demo.holding_1)
  = [1] /\
  exists (p' : @PC Demo.external) (s' : @IC.t Demo.external),
    repeat_n (List.length (key_layers (Cube.N (IC.cube Demo.holding_1))
                                      (IC._digit_flags Demo.holding_1)))
             (pc_call (key_token "r")) (IC._pycuber_rep Demo.holding_1)
    = (Ok tt, p') /\
    IC._key_press "r" Demo.holding_1 = (Ok tt, s') /\
    IC._pycuber_rep s' = p' /\
    IC.cube s'
    = fold_left
        (fun c d => rotated (upper "r") (1, 0, 0)%Z
                            (inject_Z (key_direction "r")) (Z.of_nat d) 5 c)
        (key_layers (Cube.N (IC.cube Demo.holding_1))
                    (IC._digit_flags Demo.holding_1))
        (IC.cube Demo.holding_1) /\
    IC._moveList s' = (IC._moveList Demo.holding_1 ++ [key_token "r"])%list.
Proof.
  assert (Hk : face_key "r") by (split; reflexivity).
  split; [exact Hk |].
  split; [reflexivity |].
  split; [vm_compute; reflexivity |].
  apply (face_key_turns_held_layers "r" (1, 0, 0)%Z Demo.holding_1 Hk).
  - reflexivity.
  - vm_compute. apply Nat.lt_0_succ.
  - vm_compute. repeat constructor.
  - exact demo_pc_call_R.
Defined.

Lemma upper_case_face_key_sends_apostrophe_witness :
  face_key "R" /\ str_in "R" "LRUDBF" = true /\
  key_token "R" = "'"%string /\
  exists k,
    k <= List.length (key_layers (Cube.N (IC.cube Demo.holding_1))
                                 (IC._digit_flags Demo.holding_1)) /\
    IC._pycuber_rep (snd (IC._key_press "R" Demo.holding_1))
    = snd (repeat_n k (pc_call "'") (IC._pycuber_rep Demo.holding_1)) /\
    (fst (IC._key_press "R" Demo.holding_1) = Ok tt ->
     k = List.length (key_layers (Cube.N (IC.cube Demo.holding_1))
                                 (IC._digit_flags Demo.holding_1))).
Proof.
  assert (Hk : face_key "R") by (split; reflexivity).
  split; [exact Hk |]. split; [reflexivity |].
  exact (upper_case_face_key_sends_apostrophe "R" Demo.holding_1 Hk eq_refl).
Defined.


Lemma cube_events_leave_view_witness :
  Forall cube_event
    [IV.KeyPress "1"; IV.KeyPress "r"; IV.KeyRelease "1"; IV.ClickSolve;
     IV.ClickResetCube] /\
  view_of (IV.run [IV.KeyPress "1"; IV.KeyPress "r"; IV.KeyRelease "1";
                   IV.ClickSolve; IV.ClickResetCube] demo_view)
  = view_of demo_view.
Proof.
  assert (H : Forall cube_event
                [IV.KeyPress "1"; IV.KeyPress "r"; IV.KeyRelease "1";
                 IV.ClickSolve; IV.ClickResetCube]).
  { repeat (apply Forall_cons;
            [cbn; try exact I; unfold arrow_key; cbn [In];
             intros [H | [H | [H | [H | [H | [H | []]]]]]]; discriminate H |]).
    apply Forall_nil. }
  split; [exact H |].
  exact (cube_events_leave_view _ demo_view H).
Defined.

Lemma drag_never_uses_alternative_axis_witness :
  IV._button1 (IV.run [IV.MousePress 10 20 1] demo_view) = true /\
  IV._event_xy (IV.run [IV.MousePress 10 20 1] demo_view) = Some (10, 20)%Q /\
  IV._shift (IV.run [IV.MousePress 10 20 1] demo_view) = false /\
  fst (IV._mouse_motion 13 24 (IV.run [IV.MousePress 10 20 1] demo_view)) = Done /\
  IV._current_rot
    (snd (IV._mouse_motion 13 24 (IV.run [IV.MousePress 10 20 1] demo_view)))
  = qmul (IV._current_rot (IV.run [IV.MousePress 10 20 1] demo_view))
         (qmul (from_v_theta IV._ax_UD (IV._step_UD * (24 - 20)))
               (from_v_theta IV._ax_LR (IV._step_LR * (13 - 10)))) /\
  IV._event_xy
    (snd (IV._mouse_motion 13 24 (IV.run [IV.MousePress 10 20 1] demo_view)))
  = Some (13, 24)%Q /\
  IV.core (snd (IV._mouse_motion 13 24 (IV.run [IV.MousePress 10 20 1] demo_view)))
  = IV.core demo_view.
Proof.
  split; [reflexivity |]. split; [reflexivity |].
  pose proof (@drag_never_uses_alternative_axis Demo.external demo_projection
                3 IV.default_lim IV.default_lim [IV.MousePress 10 20 1]
                13 24 10 20 eq_refl eq_refl) as H.
  exact H.
Defined.

Lemma motion_after_release_raises_witness :
  IV._button1 (IV._mouse_release 1
                 (IV.run [IV.MousePress 0 0 1; IV.MousePress 0 0 3] demo_view))
  || IV._button2 (IV._mouse_release 1
                    (IV.run [IV.MousePress 0 0 1; IV.MousePress 0 0 3] demo_view))
  = true /\
  IV._mouse_motion 5 5
    (IV._mouse_release 1
       (IV.run [IV.MousePress 0 0 1; IV.MousePress 0 0 3] demo_view))
  = (Failed TypeError,
     IV._mouse_release 1
       (IV.run [IV.MousePress 0 0 1; IV.MousePress 0 0 3] demo_view)).
Proof.
  split; [reflexivity |].
  apply (motion_after_release_raises 1 5 5
           (IV.run [IV.MousePress 0 0 1; IV.MousePress 0 0 3] demo_view)).
  reflexivity.
Defined.

Lemma digit_release_undoes_press_witness :
  isdigit "1" = true /\
  nth (int_of "1") (IC._digit_flags (IV.core demo_view)) false = false /\
  IV.run [IV.KeyPress "1"; IV.KeyRelease "1"] demo_view = demo_view.
Proof.
  split; [reflexivity |]. split; [reflexivity |].
  apply (digit_release_undoes_press "1" demo_view); reflexivity.
Defined.
